(** * mlpack: kernel density estimation facade, CSV parsers and
    item-mean normalisation, as a shallow embedding.

    Sources embedded here:
    - [src/mlpack/methods/kde/kde_impl.hpp], [kde_rules.hpp]
    - [src/mlpack/core/data/load_csv.hpp]
    - [src/mlpack/methods/cf/normalization/item_mean_normalization.hpp]

    C++ [double] is a parameter of the KDE development (class [Scalar]):
    it is instantiated by the kernel's binary64 floats, as the program is
    compiled, and by the canonical rationals [Qc] for the statements that
    are made in exact arithmetic. *)

From Stdlib Require Import ZArith QArith Qcanon Qround Floats Lia.
From stdpp Require Import gmap strings list.

Set Warnings "-register-all".

Local Open Scope Z_scope.
Local Open Scope nat_scope.

(** ** Outcomes of a C++ call *)

(** What a call can end in besides a value: a thrown exception
    ([Log::Fatal] throws [std::runtime_error]; Armadillo's checked accessors
    throw [std::logic_error]) or behaviour the language leaves undefined. *)
Inductive exn : Type :=
| runtime_error (what : string)
| logic_error (what : string).

Inductive result (A : Type) : Type :=
| Ok (a : A)
| Raises (e : exn)
| Undefined.
Arguments Ok {A} a.
Arguments Raises {A} e.
Arguments Undefined {A}.

#[global] Instance result_ret : MRet result := fun A a => Ok a.
#[global] Instance result_bind : MBind result := fun A B k r =>
  match r with
  | Ok a => k a
  | Raises e => Raises e
  | Undefined => Undefined
  end.

Lemma mbind_Ok {A B : Type} (a : A) (k : A -> result B) : (Ok a ≫= k) = k a.
Proof. reflexivity. Qed.

(** A loop over a container whose body can fail. *)
Fixpoint foldM {A S : Type} (f : S -> A -> result S) (l : list A) (s : S)
  : result S :=
  match l with
  | [] => Ok s
  | a :: l' => s' ← f s a; foldM f l' s'
  end.

Fixpoint mapM {A B : Type} (f : A -> result B) (l : list A) : result (list B) :=
  match l with
  | [] => Ok []
  | a :: l' => b ← f a; bs ← mapM f l'; Ok (b :: bs)
  end.

(** ** item_mean_normalization.hpp *)

Module ItemMeanNormalization.

Local Open Scope Qc_scope.

(** One column of the coordinate-list matrix [data]: rows 0, 1, 2. *)
Record datapoint : Type := Datapoint {
  user : Qc;
  item : Qc;
  rating : Qc
}.

(** [(size_t) x] on a double: the value is truncated toward zero, and
    the conversion is undefined when the truncated value is not
    representable. A value above -1 truncates to 0 or more; from -1
    downwards the truncated value is negative. Sizes are counted in [nat]
    here, so no value is cut off at 2^64: an id that large would index
    an [itemMean] that cannot be allocated. *)
Definition to_size_t (x : Qc) : result nat :=
  if Qle_bool x (-1) then Undefined else Ok (Z.to_nat (Qfloor x)).

Definition Qcmax (a b : Qc) : Qc := if Qle_bool a b then b else a.

(** [arma::max] of a row: throws on a row without elements. *)
Definition arma_max (row : list Qc) : result Qc :=
  match row with
  | [] => Raises (logic_error "max(): object has no elements")
  | x :: xs => Ok (fold_left Qcmax xs x)
  end.

Definition of_count (n : nat) : Qc := Q2Qc (inject_Z (Z.of_nat n)).

(** First [each_col] lambda: [itemMean(item) += rating; ratingNum(item) += 1]. *)
Definition sum_step (acc : list Qc * list nat) (dp : datapoint)
  : result (list Qc * list nat) :=
  let '(itemMean, ratingNum) := acc in
  i ← to_size_t (item dp);
  if decide (i < length itemMean)%nat
  then Ok (alter (fun m => m + rating dp) i itemMean,
           alter (fun n => (n + 1)%nat) i ratingNum)
  else Raises (logic_error "Mat::operator(): index out of bounds").

(** Body of the [for] loop: [if (ratingNum(i) != 0) itemMean(i) /= ratingNum(i)]. *)
Definition mean_step (ratingNum : list nat) (itemMean : list Qc) (i : nat)
  : list Qc :=
  match ratingNum !! i with
  | Some n => if decide (n ≠ 0%nat)
              then alter (fun m => m / of_count n) i itemMean
              else itemMean
  | None => itemMean
  end.

(** Second [each_col] lambda: [datapoint(2) -= itemMean(item)]. *)
Definition subtract_step (itemMean : list Qc) (dp : datapoint)
  : result datapoint :=
  i ← to_size_t (item dp);
  match itemMean !! i with
  | Some m => Ok (Datapoint (user dp) (item dp) (rating dp - m))
  | None => Raises (logic_error "Mat::operator(): index out of bounds")
  end.

(** [Normalize(arma::mat& data)]: the new [itemMean] member and the
    matrix as it is left. *)
Definition Normalize (data : list datapoint)
  : result (list Qc * list datapoint) :=
  mx ← arma_max (map item data);
  itemNum ← to_size_t (mx + 1);
  '(sums, ratingNum) ←
     foldM sum_step data (replicate itemNum 0, replicate itemNum 0%nat);
  let itemMean := fold_left (mean_step ratingNum) (seq 0 itemNum) sums in
  data' ← mapM (subtract_step itemMean) data;
  Ok (itemMean, data').

(** [Denormalize(user, item, rating)]: [rating + itemMean(item)]. *)
Definition Denormalize (itemMean : list Qc) (_user item : nat) (rating : Qc)
  : result Qc :=
  match itemMean !! item with
  | Some m => Ok (rating + m)
  | None => Raises (logic_error "Mat::operator(): index out of bounds")
  end.

(** The mean rating of an item, as the documentation words it: the sum of
    the ratings given to the item over their number, and 0 for an item
    nobody rated. *)
Definition rated (j : nat) (dp : datapoint) : bool :=
  match to_size_t (item dp) with
  | Ok i => bool_decide (i = j)
  | _ => false
  end.

Definition ratings_of (data : list datapoint) (j : nat) : list Qc :=
  map rating (filter (fun dp => rated j dp = true) data).

Definition Qcsum (l : list Qc) : Qc := fold_right Qcplus 0 l.

Definition item_mean (data : list datapoint) (j : nat) : Qc :=
  match ratings_of data j with
  | [] => 0
  | rs => Qcsum rs / of_count (length rs)
  end.

(** *** Casts and the item count *)

Lemma to_size_t_above (x : Qc) :
  - (1) < x -> to_size_t x = Ok (Z.to_nat (Qfloor x)).
Proof.
  intros H. unfold to_size_t.
  destruct (Qle_bool x (-1)) eqn:E; [|reflexivity].
  apply Qle_bool_iff in E. exfalso. exact (Qlt_not_le _ _ H E).
Qed.

Lemma to_size_t_Ok (x : Qc) (i : nat) :
  to_size_t x = Ok i -> - (1) < x /\ i = Z.to_nat (Qfloor x).
Proof.
  unfold to_size_t. destruct (Qle_bool x (-1)) eqn:E; [discriminate|].
  intros [= <-]. split; [|reflexivity]. apply Qnot_le_lt. intros Hle.
  assert (Qle_bool x (-1) = true) as E' by (apply Qle_bool_iff; exact Hle).
  rewrite E' in E. discriminate E.
Qed.

Lemma to_size_t_below (x : Qc) : x <= - (1) -> to_size_t x = Undefined.
Proof.
  intros H. unfold to_size_t.
  replace (Qle_bool x (-1)) with true; [reflexivity|].
  symmetry. apply Qle_bool_iff. exact H.
Qed.

Lemma above_of_nonneg (x : Qc) : 0 <= x -> - (1) < x.
Proof. intros H. apply Qclt_le_trans with 0; [reflexivity | exact H]. Qed.

Lemma to_size_t_nonneg (x : Qc) :
  0 <= x -> to_size_t x = Ok (Z.to_nat (Qfloor x)).
Proof. intros H. apply to_size_t_above, above_of_nonneg, H. Qed.

Lemma Qfloor_succ (q : Q) : Qfloor (q + 1) = (Qfloor q + 1)%Z.
Proof.
  destruct q as [n d]. unfold Qplus, Qfloor. simpl.
  rewrite Z.mul_1_r, Pos.mul_1_r.
  apply Z.div_add. discriminate.
Qed.

Lemma Qfloor_Qc_succ (x : Qc) : Qfloor (x + 1)%Qc = (Qfloor x + 1)%Z.
Proof.
  rewrite <- Qfloor_succ. unfold Qcplus, Q2Qc. simpl this.
  apply Qfloor_comp. apply Qred_correct.
Qed.

Lemma Qcmax_l (a b : Qc) : a <= Qcmax a b.
Proof.
  unfold Qcmax. destruct (Qle_bool a b) eqn:E.
  - apply Qle_bool_iff in E. exact E.
  - apply Qcle_refl.
Qed.

Lemma Qcmax_r (a b : Qc) : b <= Qcmax a b.
Proof.
  unfold Qcmax. destruct (Qle_bool a b) eqn:E.
  - apply Qcle_refl.
  - destruct (Qclt_le_dec a b) as [H|H]; [|exact H].
    apply Qclt_le_weak in H. apply Qle_bool_iff in H.
    unfold Qcle in *. congruence.
Qed.

Lemma fold_Qcmax_ge (xs : list Qc) (x0 : Qc) :
  x0 <= fold_left Qcmax xs x0 /\
  Forall (fun x => x <= fold_left Qcmax xs x0) xs.
Proof.
  revert x0. induction xs as [|x xs IH]; intros x0; simpl.
  - split; [apply Qcle_refl | constructor].
  - destruct (IH (Qcmax x0 x)) as [H0 Hxs]. split.
    + eapply Qcle_trans; [apply Qcmax_l | exact H0].
    + constructor; [|exact Hxs].
      eapply Qcle_trans; [apply Qcmax_r | exact H0].
Qed.

Lemma arma_max_ge (row : list Qc) (mx : Qc) :
  arma_max row = Ok mx -> Forall (fun x => x <= mx) row.
Proof.
  destruct row as [|x xs]; simpl; [discriminate|].
  intros [= <-]. destruct (fold_Qcmax_ge xs x). constructor; assumption.
Qed.

(** Every item index read from a matrix whose largest item id is not
    negative is below [itemNum = (size_t) (max + 1)]. *)
Lemma item_index_lt (x mx : Qc) :
  x <= mx -> 0 <= mx ->
  (Z.to_nat (Qfloor x) < Z.to_nat (Qfloor (mx + 1)%Qc))%nat.
Proof.
  intros Hle H0. rewrite Qfloor_Qc_succ.
  assert (0 <= Qfloor mx)%Z.
  { change 0%Z with (Qfloor 0). apply Qfloor_resp_le. exact H0. }
  assert (Qfloor x <= Qfloor mx)%Z by (apply Qfloor_resp_le; exact Hle).
  lia.
Qed.

(** *** The three passes of [Normalize] *)

(** A column whose item id is a valid index into a vector of [n] items. *)
Definition in_range (n : nat) (dp : datapoint) : Prop :=
  - (1) < item dp /\ (Z.to_nat (Qfloor (item dp)) < n)%nat.

Lemma rated_above (j : nat) (dp : datapoint) :
  - (1) < item dp ->
  rated j dp = bool_decide (Z.to_nat (Qfloor (item dp)) = j).
Proof. intros H0. unfold rated. rewrite (to_size_t_above _ H0). reflexivity. Qed.

Lemma ratings_of_cons (dp : datapoint) (data : list datapoint) (j : nat) :
  - (1) < item dp ->
  ratings_of (dp :: data) j =
  if decide (Z.to_nat (Qfloor (item dp)) = j)
  then rating dp :: ratings_of data j
  else ratings_of data j.
Proof.
  intros H0. unfold ratings_of. rewrite filter_cons.
  pose proof (rated_above j dp H0) as Hr.
  destruct (decide (Z.to_nat (Qfloor (item dp)) = j)) as [E|E].
  - rewrite bool_decide_true in Hr by exact E.
    rewrite decide_True by exact Hr. reflexivity.
  - rewrite bool_decide_false in Hr by exact E.
    rewrite decide_False by congruence. reflexivity.
Qed.

Lemma sum_pass (data : list datapoint) : forall (im : list Qc) (rn : list nat),
  length rn = length im ->
  Forall (in_range (length im)) data ->
  exists im' rn',
    foldM sum_step data (im, rn) = Ok (im', rn') /\
    length im' = length im /\ length rn' = length im /\
    (forall j, im' !! j = (fun m => m + Qcsum (ratings_of data j)) <$> im !! j) /\
    (forall j, rn' !! j =
               (fun n => (n + length (ratings_of data j))%nat) <$> rn !! j).
Proof.
  induction data as [|dp data IH]; intros im rn Hlen Hall.
  - exists im, rn. simpl. repeat split; try assumption; intros j.
    + destruct (im !! j); simpl; [f_equal; ring | reflexivity].
    + destruct (rn !! j); simpl; [f_equal; lia | reflexivity].
  - inversion Hall as [|? ? [H0 Hlt] Hall']; subst.
    destruct (IH (alter (fun m => m + rating dp) (Z.to_nat (Qfloor (item dp))) im)
                 (alter (fun n => (n + 1)%nat) (Z.to_nat (Qfloor (item dp))) rn))
      as (im' & rn' & Hrun & Hl1 & Hl2 & Him & Hrn).
    { rewrite !length_alter. exact Hlen. }
    { rewrite length_alter. exact Hall'. }
    exists im', rn'. rewrite length_alter in Hl1, Hl2.
    split; [|split; [exact Hl1 | split; [exact Hl2 | split]]].
    + simpl. unfold sum_step at 1. rewrite (to_size_t_above _ H0). simpl.
      rewrite decide_True by exact Hlt. exact Hrun.
    + intros j. rewrite Him, (ratings_of_cons _ _ _ H0).
      destruct (decide (Z.to_nat (Qfloor (item dp)) = j)) as [->|Hne].
      * rewrite list_lookup_alter_eq. destruct (im !! j); simpl; [|reflexivity].
        f_equal. ring.
      * rewrite list_lookup_alter_ne by exact Hne. reflexivity.
    + intros j. rewrite Hrn, (ratings_of_cons _ _ _ H0).
      destruct (decide (Z.to_nat (Qfloor (item dp)) = j)) as [->|Hne].
      * rewrite list_lookup_alter_eq. destruct (rn !! j); simpl; [|reflexivity].
        f_equal. lia.
      * rewrite list_lookup_alter_ne by exact Hne. reflexivity.
Qed.

(** The effect of the [for] loop on one entry. *)
Definition mean_of (ratingNum : list nat) (i : nat) (m : Qc) : Qc :=
  match ratingNum !! i with
  | Some n => if decide (n ≠ 0%nat) then m / of_count n else m
  | None => m
  end.

Lemma mean_step_lookup (rn : list nat) (im : list Qc) (i j : nat) :
  mean_step rn im i !! j =
  if decide (i = j) then mean_of rn i <$> im !! j else im !! j.
Proof.
  unfold mean_step, mean_of.
  destruct (decide (i = j)) as [->|Hne].
  - destruct (rn !! j) as [n|]; [destruct (decide (n ≠ 0%nat))|].
    + apply list_lookup_alter_eq.
    + destruct (im !! j); reflexivity.
    + destruct (im !! j); reflexivity.
  - destruct (rn !! i) as [n|]; [destruct (decide (n ≠ 0%nat))|]; try reflexivity.
    apply list_lookup_alter_ne. exact Hne.
Qed.

Lemma mean_pass (rn : list nat) (im : list Qc) (n j : nat) :
  fold_left (mean_step rn) (seq 0 n) im !! j =
  if decide (j < n)%nat then mean_of rn j <$> im !! j else im !! j.
Proof.
  induction n as [|n IH].
  - case_decide; [lia | reflexivity].
  - rewrite seq_S, fold_left_app. cbn [fold_left Nat.add].
    rewrite mean_step_lookup, IH.
    repeat case_decide; try lia; subst; reflexivity.
Qed.

Lemma subtract_pass (im : list Qc) (data : list datapoint) :
  Forall (in_range (length im)) data ->
  exists data',
    mapM (subtract_step im) data = Ok data' /\
    forall k dp, data !! k = Some dp ->
      exists m, im !! Z.to_nat (Qfloor (item dp)) = Some m /\
        data' !! k = Some (Datapoint (user dp) (item dp) (rating dp - m)).
Proof.
  induction data as [|dp data IH]; intros Hall.
  - exists []. split; [reflexivity|]. intros k dp H. destruct k; discriminate.
  - inversion Hall as [|? ? [H0 Hlt] Hall']; subst.
    destruct (IH Hall') as (data' & Hrun & Hk).
    destruct (lookup_lt_is_Some_2 im _ Hlt) as [m Hm].
    exists (Datapoint (user dp) (item dp) (rating dp - m) :: data'). split.
    + assert (subtract_step im dp =
              Ok (Datapoint (user dp) (item dp) (rating dp - m))) as Hs.
      { unfold subtract_step. rewrite (to_size_t_above _ H0). cbn.
        rewrite Hm. reflexivity. }
      cbn [mapM]. rewrite Hs. cbn. rewrite Hrun. reflexivity.
    + intros [|k] dp' H; simpl in H.
      * injection H as <-. exists m. split; [exact Hm | reflexivity].
      * apply Hk. exact H.
Qed.

Lemma mean_pass_length (rn : list nat) (idx : list nat) (im : list Qc) :
  length (fold_left (mean_step rn) idx im) = length im.
Proof.
  revert im. induction idx as [|i idx IH]; intros im; [reflexivity|].
  cbn [fold_left]. rewrite IH. unfold mean_step.
  destruct (rn !! i) as [n|]; [|reflexivity].
  destruct (decide (n ≠ 0%nat)); [apply length_alter | reflexivity].
Qed.

(** What [Normalize] leaves in [itemMean]: the mean rating of every item. *)
Lemma Normalize_itemMean (data : list datapoint) (mx : Qc) :
  Forall (fun d => - (1) < item d) data ->
  arma_max (map item data) = Ok mx ->
  0 <= mx ->
  exists itemMean data',
    Normalize data = Ok (itemMean, data') /\
    Forall (in_range (length itemMean)) data /\
    (forall j, (j < length itemMean)%nat ->
               itemMean !! j = Some (item_mean data j)) /\
    (forall k dp, data !! k = Some dp ->
       exists m, itemMean !! Z.to_nat (Qfloor (item dp)) = Some m /\
         data' !! k = Some (Datapoint (user dp) (item dp) (rating dp - m))).
Proof.
  intros Hnn Hmx Hmx0.
  assert (0 <= mx + 1) as Hpos.
  { apply Qcle_trans with mx; [exact Hmx0|].
    apply Qcle_minus_iff. replace (mx + 1 + - mx) with 1 by ring. discriminate. }
  set (itemNum := Z.to_nat (Qfloor (mx + 1)%Qc)).
  assert (Forall (in_range itemNum) data) as Hrange.
  { apply arma_max_ge in Hmx. rewrite Forall_map in Hmx.
    rewrite Forall_forall in Hnn, Hmx. apply Forall_forall. intros d Hd.
    split; [apply Hnn, Hd|]. apply item_index_lt; [apply Hmx, Hd | exact Hmx0]. }
  destruct (sum_pass data (replicate itemNum 0) (replicate itemNum 0%nat))
    as (sums & rn & Hsum & Hl1 & Hl2 & Hs & Hr).
  { rewrite !length_replicate. reflexivity. }
  { rewrite length_replicate. exact Hrange. }
  rewrite length_replicate in Hl1, Hl2.
  set (itemMean := fold_left (mean_step rn) (seq 0 itemNum) sums).
  assert (length itemMean = itemNum) as Hlen.
  { unfold itemMean. rewrite mean_pass_length. exact Hl1. }
  destruct (subtract_pass itemMean data) as (data' & Hsub & Hk).
  { rewrite Hlen. exact Hrange. }
  exists itemMean, data'. split; [|split; [|split]].
  - unfold Normalize. rewrite Hmx, mbind_Ok, (to_size_t_nonneg _ Hpos), mbind_Ok.
    fold itemNum. rewrite Hsum, mbind_Ok. cbv beta iota. fold itemMean.
    rewrite Hsub. reflexivity.
  - rewrite Hlen. exact Hrange.
  - intros j Hj. rewrite Hlen in Hj. unfold itemMean.
    rewrite mean_pass, decide_True by exact Hj.
    rewrite Hs, lookup_replicate_2 by exact Hj. cbn.
    unfold mean_of. rewrite Hr, lookup_replicate_2 by exact Hj. cbn.
    unfold item_mean. f_equal.
    destruct (ratings_of data j) as [|r rs].
    + rewrite decide_False by (cbn; lia). unfold Qcsum. cbn [fold_right]. ring.
    + rewrite decide_True by (cbn; lia).
      replace (0 + Qcsum (r :: rs)) with (Qcsum (r :: rs)) by ring.
      reflexivity.
  - exact Hk.
Qed.

(** C10. On a coordinate list whose item ids are non-negative, [Normalize]
    succeeds, stores in [itemMean] the mean rating of each item (0 for an
    item without ratings), replaces each rating by the rating minus the
    mean of its item, and [Denormalize] on the normalised rating of an entry
    gives back the entry's original rating. *)
Theorem Normalize_Denormalize_roundtrip
    (data : list datapoint) (k : nat) (dp : datapoint) :
  Forall (fun d => 0 <= item d) data ->
  data !! k = Some dp ->
  exists itemMean data' i,
    Normalize data = Ok (itemMean, data') /\
    to_size_t (item dp) = Ok i /\
    (forall j, (j < length itemMean)%nat ->
               itemMean !! j = Some (item_mean data j)) /\
    data' !! k =
      Some (Datapoint (user dp) (item dp) (rating dp - item_mean data i)) /\
    forall u, Denormalize itemMean u i (rating dp - item_mean data i)
              = Ok (rating dp).
Proof.
  intros Hnn Hk.
  destruct (arma_max (map item data)) as [mx| |] eqn:Hmx;
    [|destruct data; [destruct k|]; discriminate ..].
  assert (0 <= item dp) as H0.
  { rewrite Forall_forall in Hnn. apply Hnn. eapply list_elem_of_lookup_2, Hk. }
  assert (item dp <= mx) as Hle.
  { pose proof (arma_max_ge _ _ Hmx) as Hge. rewrite Forall_map, Forall_forall in Hge.
    apply Hge. eapply list_elem_of_lookup_2, Hk. }
  assert (0 <= mx) as Hpos by (apply Qcle_trans with (item dp); assumption).
  assert (Forall (fun d => - (1) < item d) data) as Hab.
  { eapply Forall_impl; [exact Hnn|]. intros d. apply above_of_nonneg. }
  destruct (Normalize_itemMean data mx Hab Hmx Hpos)
    as (itemMean & data' & Hrun & Hrange & Hmean & Hdata).
  destruct (Hdata k dp Hk) as (m & Hm & Hk').
  assert (m = item_mean data (Z.to_nat (Qfloor (item dp)))) as ->.
  { rewrite Hmean in Hm; [congruence|]. eapply lookup_lt_Some, Hm. }
  exists itemMean, data', (Z.to_nat (Qfloor (item dp))).
  split; [exact Hrun|]. split; [apply to_size_t_nonneg, H0|].
  split; [exact Hmean|]. split; [exact Hk'|].
  intros u. unfold Denormalize. rewrite Hm. f_equal. ring.
Qed.

Definition sample_data : list datapoint :=
  [Datapoint 0 (Q2Qc 1) (Q2Qc 4);
   Datapoint (Q2Qc 1) (Q2Qc 1) (Q2Qc 2);
   Datapoint (Q2Qc 2) (Q2Qc (7 # 2)) (Q2Qc 5)].

Lemma Normalize_Denormalize_roundtrip_witness :
  exists itemMean data' i,
    Normalize sample_data = Ok (itemMean, data') /\
    to_size_t (Q2Qc 1) = Ok i /\
    (forall j, (j < length itemMean)%nat ->
               itemMean !! j = Some (item_mean sample_data j)) /\
    data' !! 1%nat =
      Some (Datapoint (Q2Qc 1) (Q2Qc 1) (Q2Qc 2 - item_mean sample_data i)) /\
    forall u, Denormalize itemMean u i (Q2Qc 2 - item_mean sample_data i)
              = Ok (Q2Qc 2).
Proof.
  apply (Normalize_Denormalize_roundtrip sample_data 1
           (Datapoint (Q2Qc 1) (Q2Qc 1) (Q2Qc 2))).
  - repeat constructor; cbn; discriminate.
  - reflexivity.
Defined.

(** *** The batch overload of [Denormalize] and the shape of [itemMean] *)

(** Body of the loop of [Denormalize(combinations, predictions)]:
    [item = combinations(1, i); predictions(i) += itemMean(item)]. A column
    of [combinations] is a pair (user, item). *)
Definition denormalize_step (itemMean : list Qc) (combinations : list (nat * nat))
    (predictions : list Qc) (i : nat) : result (list Qc) :=
  match combinations !! i with
  | Some (_, item) =>
      match itemMean !! item with
      | Some m => Ok (alter (fun p => p + m) i predictions)
      | None => Raises (logic_error "Mat::operator(): index out of bounds")
      end
  | None => Raises (logic_error "Mat::operator(): index out of bounds")
  end.

(** [Denormalize(combinations, predictions)]: the vector as it is left. *)
Definition Denormalize_batch (itemMean : list Qc) (combinations : list (nat * nat))
    (predictions : list Qc) : result (list Qc) :=
  foldM (denormalize_step itemMean combinations)
        (seq 0 (length predictions)) predictions.

(** [ItemMean()]. *)
Definition ItemMean (itemMean : list Qc) : list Qc := itemMean.

Lemma mapM_Forall2 {A B : Type} (f : A -> result B) (l : list A) (l' : list B) :
  mapM f l = Ok l' <-> Forall2 (fun a b => f a = Ok b) l l'.
Proof.
  revert l'. induction l as [|a l IH]; intros l'; cbn [mapM].
  - split.
    + intros [= <-]. constructor.
    + intros Hall. inversion Hall. reflexivity.
  - split.
    + destruct (f a) as [b| |] eqn:E; try discriminate. rewrite mbind_Ok.
      destruct (mapM f l) as [bs| |]; try discriminate. rewrite mbind_Ok.
      intros [= <-]. constructor; [exact E|]. apply IH. reflexivity.
    + intros Hall. inversion Hall as [|? b ? bs E Hrest]; subst.
      rewrite E, mbind_Ok. apply IH in Hrest. rewrite Hrest. reflexivity.
Qed.

Lemma denormalize_loop (itemMean : list Qc) (combinations : list (nat * nat)) :
  forall (n k : nat) (predictions : list Qc),
    (k + n)%nat = length predictions ->
    (length predictions <= length combinations)%nat ->
    foldM (denormalize_step itemMean combinations) (seq k n) predictions
    = (tl ← mapM (fun cp => Denormalize itemMean cp.1.1 cp.1.2 cp.2)
                 (drop k (zip combinations predictions));
       Ok (take k predictions ++ tl)).
Proof.
  induction n as [|n IH]; intros k ps Hlen Hcs.
  - cbn [seq foldM]. rewrite drop_ge by (rewrite length_zip; lia).
    cbn [mapM]. rewrite mbind_Ok, app_nil_r, take_ge by lia. reflexivity.
  - cbn [seq foldM].
    destruct (lookup_lt_is_Some_2 ps k) as [p Hp]; [lia|].
    destruct (lookup_lt_is_Some_2 combinations k) as [[u it] Hc]; [lia|].
    assert (zip combinations ps !! k = Some ((u, it), p)) as Hz.
    { apply lookup_zip_with_Some. eauto. }
    rewrite (drop_S _ _ _ Hz). cbn [mapM fst snd].
    assert (denormalize_step itemMean combinations ps k
            = match itemMean !! it with
              | Some m => Ok (alter (fun p0 => p0 + m) k ps)
              | None => Raises (logic_error "Mat::operator(): index out of bounds")
              end) as ->
      by (unfold denormalize_step; rewrite Hc; reflexivity).
    destruct (itemMean !! it) as [m|] eqn:Em.
    2: { replace (Denormalize itemMean u it p)
           with (@Raises Qc (logic_error "Mat::operator(): index out of bounds"))
           by (unfold Denormalize; rewrite Em; reflexivity).
         reflexivity. }
    replace (Denormalize itemMean u it p) with (Ok (p + m))
      by (unfold Denormalize; rewrite Em; reflexivity).
    rewrite !mbind_Ok, IH by (rewrite ?length_alter; lia).
    assert (drop (S k) (zip combinations (alter (fun p0 => p0 + m) k ps))
            = drop (S k) (zip combinations ps)) as ->.
    { apply list_eq. intros i. rewrite !lookup_drop.
      rewrite !lookup_zip_with.
      rewrite list_lookup_alter_ne by lia. reflexivity. }
    assert (take (S k) (alter (fun p0 => p0 + m) k ps)
            = take k ps ++ [p + m]) as ->.
    { rewrite (take_S_r _ _ (p + m)).
      - rewrite take_alter_ge by lia. reflexivity.
      - rewrite list_lookup_alter_eq, Hp. reflexivity. }
    destruct (mapM _ (drop (S k) (zip combinations ps))) as [tl| |];
      [|reflexivity ..].
    rewrite !mbind_Ok, <- app_assoc. reflexivity.
Qed.

(** The batch overload does to every prediction what the scalar
    overload does to one, errors included: with a column of [combinations]
    for every prediction, it is the scalar [Denormalize] applied along the
    columns, and it throws where the first of these throws. *)
Theorem Denormalize_batch_is_scalar
    (itemMean : list Qc) (combinations : list (nat * nat))
    (predictions : list Qc) :
  (length predictions <= length combinations)%nat ->
  Denormalize_batch itemMean combinations predictions
  = mapM (fun cp => Denormalize itemMean cp.1.1 cp.1.2 cp.2)
         (zip combinations predictions).
Proof.
  intros Hlen. unfold Denormalize_batch.
  rewrite (denormalize_loop itemMean combinations _ 0) by (cbn; lia).
  rewrite drop_0. cbn [take app].
  destruct (mapM _ _); reflexivity.
Qed.

(** *** What a successful [Normalize] has done *)

Lemma sum_step_length (acc acc' : list Qc * list nat) (dp : datapoint) :
  sum_step acc dp = Ok acc' -> length acc'.1 = length acc.1.
Proof.
  destruct acc as [im rn]. unfold sum_step.
  destruct (to_size_t (item dp)) as [i| |]; try discriminate.
  rewrite mbind_Ok. case_decide; [|discriminate].
  intros [= <-]. cbn. apply length_alter.
Qed.

Lemma sum_loop_length (data : list datapoint) :
  forall acc acc' : list Qc * list nat,
    foldM sum_step data acc = Ok acc' -> length acc'.1 = length acc.1.
Proof.
  induction data as [|dp data IH]; intros acc acc'; cbn [foldM].
  - intros [= <-]. reflexivity.
  - destruct (sum_step acc dp) as [acc1| |] eqn:E; try discriminate.
    rewrite mbind_Ok. intros Hrun. rewrite (IH _ _ Hrun).
    apply (sum_step_length _ _ _ E).
Qed.

Lemma sum_loop_Ok (data : list datapoint) :
  forall acc acc' : list Qc * list nat,
    foldM sum_step data acc = Ok acc' -> Forall (in_range (length acc.1)) data.
Proof.
  induction data as [|dp data IH]; intros [im rn] acc'; cbn [foldM];
    [constructor|].
  destruct (sum_step (im, rn) dp) as [acc1| |] eqn:E; try discriminate.
  rewrite mbind_Ok. intros Hrun. specialize (IH _ _ Hrun).
  rewrite (sum_step_length _ _ _ E) in IH. constructor; [|exact IH].
  unfold sum_step in E.
  destruct (to_size_t (item dp)) as [i| |] eqn:Ei; try discriminate.
  rewrite mbind_Ok in E. case_decide as Hi; [|discriminate].
  destruct (to_size_t_Ok _ _ Ei) as [Hab ->]. split; assumption.
Qed.

(** The centred column of [dp] for the means [mean]. *)
Definition centred (mean : nat -> Qc) (dp : datapoint) : datapoint :=
  Datapoint (user dp) (item dp)
            (rating dp - mean (Z.to_nat (Qfloor (item dp)))).

Lemma Normalize_inv (data : list datapoint) (itemMean : list Qc)
    (data' : list datapoint) :
  Normalize data = Ok (itemMean, data') ->
  exists mx,
    arma_max (map item data) = Ok mx /\
    0 <= mx /\
    length itemMean = Z.to_nat (Qfloor (mx + 1)%Qc) /\
    Forall (fun d => - (1) < item d) data /\
    (forall j, (j < length itemMean)%nat ->
               itemMean !! j = Some (item_mean data j)) /\
    Forall (in_range (length itemMean)) data /\
    data' = map (centred (item_mean data)) data.
Proof.
  intros Hrun. pose proof Hrun as Hrun0. unfold Normalize in Hrun.
  destruct (arma_max (map item data)) as [mx| |] eqn:Hmx; try discriminate.
  rewrite mbind_Ok in Hrun.
  destruct (to_size_t (mx + 1)) as [itemNum| |] eqn:Hn; try discriminate.
  rewrite mbind_Ok in Hrun. destruct (to_size_t_Ok _ _ Hn) as [_ ->].
  destruct (foldM sum_step data _) as [[sums rn]| |] eqn:Hsum; try discriminate.
  rewrite mbind_Ok in Hrun. cbv beta iota in Hrun.
  destruct (mapM _ data) as [data0| |] eqn:Hsub; try discriminate.
  rewrite mbind_Ok in Hrun. injection Hrun as <- <-.
  apply mapM_Forall2 in Hsub.
  pose proof (sum_loop_Ok _ _ _ Hsum) as Hin. cbn [fst] in Hin.
  rewrite length_replicate in Hin.
  assert (Forall (fun d => - (1) < item d) data) as Hnn.
  { eapply Forall_impl; [exact Hin|]. intros d [Hd _]. exact Hd. }
  assert (0 <= mx) as Hpos.
  { destruct data as [|dp0 data0']; [discriminate Hmx|].
    inversion Hin as [|? ? [_ Hlt] _]; subst.
    rewrite Qfloor_Qc_succ in Hlt.
    assert (0 <= Qfloor mx)%Z as Hfl by lia.
    apply Qcle_trans with (Q2Qc (inject_Z (Qfloor mx))).
    - unfold Qcle. cbn [this Q2Qc]. rewrite !Qred_correct.
      change 0%Q with (inject_Z 0). rewrite <- Zle_Qle. exact Hfl.
    - unfold Qcle. cbn [this Q2Qc]. rewrite Qred_correct. apply Qfloor_le. }
  destruct (Normalize_itemMean data mx Hnn Hmx Hpos)
    as (im1 & data1 & Hrun1 & Hrange & Hmean & Hdata).
  rewrite Hrun0 in Hrun1. injection Hrun1 as <- <-.
  exists mx. split; [reflexivity|]. split; [exact Hpos|]. split.
  { rewrite mean_pass_length.
    pose proof (sum_loop_length _ _ _ Hsum) as Hl. cbn [fst] in Hl.
    rewrite Hl. apply length_replicate. }
  split; [exact Hnn|]. split; [exact Hmean|]. split; [exact Hrange|].
  apply list_eq. intros k. rewrite list_lookup_fmap.
  destruct (data !! k) as [dp|] eqn:Hk; cbn.
  - destruct (Hdata k dp Hk) as (m & Hm & Hk'). rewrite Hk'. unfold centred.
    rewrite Hmean in Hm by (eapply lookup_lt_Some, Hm). congruence.
  - apply lookup_ge_None. rewrite <- (Forall2_length _ _ _ Hsub).
    apply lookup_ge_None. exact Hk.
Qed.

(** After [Normalize], [Denormalize] adds to a rating the mean rating of
    the item (0 for an item without ratings) for every item id up to the
    largest one in the data, and throws for every larger one: [itemMean] has
    one entry more than the largest item id. *)
Theorem Denormalize_after_Normalize
    (data data' : list datapoint) (itemMean : list Qc) :
  Normalize data = Ok (itemMean, data') ->
  exists mx,
    arma_max (map item data) = Ok mx /\
    length (ItemMean itemMean) = Z.to_nat (Qfloor mx + 1) /\
    forall (u i : nat) (r : Qc),
      Denormalize itemMean u i r
      = if decide (Z.of_nat i <= Qfloor mx)%Z
        then Ok (r + item_mean data i)
        else Raises (logic_error "Mat::operator(): index out of bounds").
Proof.
  intros Hrun.
  destruct (Normalize_inv _ _ _ Hrun)
    as (mx & Hmx & Hpos & Hlen & _ & Hmean & _ & _).
  rewrite Qfloor_Qc_succ in Hlen.
  assert (0 <= Qfloor mx)%Z as Hfl.
  { change 0%Z with (Qfloor 0). apply Qfloor_resp_le. exact Hpos. }
  exists mx. split; [exact Hmx|]. split; [exact Hlen|].
  intros u i r. unfold Denormalize. case_decide as Hi.
  - rewrite Hmean by lia. reflexivity.
  - rewrite (proj2 (lookup_ge_None itemMean i)) by lia. reflexivity.
Qed.

Lemma of_count_S (n : nat) : of_count (S n) = of_count n + 1.
Proof.
  apply Qc_is_canon. unfold of_count. cbn [this Qcplus Q2Qc].
  rewrite !Qred_correct. rewrite Nat2Z.inj_succ. unfold Z.succ.
  rewrite inject_Z_plus. reflexivity.
Qed.

Lemma of_count_pos (n : nat) : 0 < of_count (S n).
Proof.
  unfold Qclt, of_count. cbn [this Q2Qc]. rewrite !Qred_correct.
  change (0%Q) with (inject_Z 0). rewrite <- Zlt_Qlt. lia.
Qed.

Lemma Qcsum_shift (c : Qc) (rs : list Qc) :
  Qcsum (map (fun r => r - c) rs) = Qcsum rs - of_count (length rs) * c.
Proof.
  induction rs as [|r rs IH].
  - unfold Qcsum, of_count. cbn.
    assert (Q2Qc (inject_Z (Z.of_nat 0)) = 0) as ->
      by (apply Qc_is_canon; reflexivity).
    ring.
  - cbn [map length]. unfold Qcsum in *. cbn [fold_right].
    rewrite IH, of_count_S. ring.
Qed.

Lemma ratings_of_centred (mean : nat -> Qc) (data : list datapoint) (j : nat) :
  Forall (fun d => - (1) < item d) data ->
  ratings_of (map (centred mean) data) j
  = map (fun r => r - mean j) (ratings_of data j).
Proof.
  induction data as [|dp data IH]; intros Hnn; [reflexivity|].
  inversion Hnn as [|? ? H0 Hnn']; subst. cbn [map].
  rewrite (ratings_of_cons (centred mean dp)) by exact H0.
  rewrite (ratings_of_cons dp) by exact H0. cbn [item centred].
  rewrite (IH Hnn'). case_decide as E; [|reflexivity].
  cbn [map]. unfold centred. cbn [rating]. rewrite E. reflexivity.
Qed.

Lemma centred_sum (data : list datapoint) (j : nat) :
  Forall (fun d => - (1) < item d) data ->
  Qcsum (ratings_of (map (centred (item_mean data)) data) j) = 0.
Proof.
  intros Hnn.
  rewrite (ratings_of_centred _ _ _ Hnn), Qcsum_shift. unfold item_mean.
  destruct (ratings_of data j) as [|r rs] eqn:E.
  - unfold Qcsum. cbn. ring.
  - cbn [length]. field. intros Hz. pose proof (of_count_pos (length rs)) as Hp.
    rewrite Hz in Hp. discriminate Hp.
Qed.

(** [Normalize] centres every item: in the matrix it leaves, the ratings
    of each item add up to 0, and so does the mean rating of each item. *)
Theorem Normalize_centres
    (data data' : list datapoint) (itemMean : list Qc) (j : nat) :
  Normalize data = Ok (itemMean, data') ->
  Qcsum (ratings_of data' j) = 0 /\ item_mean data' j = 0.
Proof.
  intros Hrun.
  destruct (Normalize_inv _ _ _ Hrun) as (mx & _ & _ & _ & Hnn & _ & _ & ->).
  pose proof (centred_sum data j Hnn) as Hs. split; [exact Hs|].
  unfold item_mean. destruct (ratings_of _ j); [reflexivity|].
  rewrite Hs. unfold Qcdiv. ring.
Qed.

(** The batch [Denormalize] undoes [Normalize]: applied to the
    normalised ratings, with the item ids of the data in the item row of
    [combinations] (the user row is not read), it gives back the original
    ratings. *)
Theorem Normalize_Denormalize_batch
    (data data' : list datapoint) (itemMean : list Qc)
    (combinations : list (nat * nat)) :
  Normalize data = Ok (itemMean, data') ->
  map snd combinations = map (fun dp => Z.to_nat (Qfloor (item dp))) data ->
  Denormalize_batch itemMean combinations (map rating data')
  = Ok (map rating data).
Proof.
  intros Hrun Hitems.
  destruct (Normalize_inv _ _ _ Hrun)
    as (mx & _ & _ & _ & Hnn & Hmean & Hrange & ->).
  assert (length combinations = length data) as Hlen.
  { rewrite <- (length_map snd), Hitems. apply length_map. }
  unfold Denormalize_batch.
  rewrite (denormalize_loop itemMean combinations _ 0)
    by (cbn; rewrite ?length_map; lia).
  rewrite drop_0. cbn [take app].
  assert (mapM (fun cp => Denormalize itemMean cp.1.1 cp.1.2 cp.2)
               (zip combinations (map rating (map (centred (item_mean data)) data)))
          = Ok (map rating data)) as ->; [|reflexivity].
  apply mapM_Forall2. apply Forall2_same_length_lookup_2.
  { rewrite length_zip, !length_map. lia. }
  intros k [[u it] r'] r Hz Hr.
  apply lookup_zip_Some in Hz. destruct Hz as [Hc Hr'].
  rewrite !list_lookup_fmap in Hr'. rewrite list_lookup_fmap in Hr.
  destruct (data !! k) as [dp|] eqn:Hk; [|discriminate].
  cbn in Hr, Hr'. injection Hr as <-. injection Hr' as <-.
  assert (it = Z.to_nat (Qfloor (item dp))) as ->.
  { apply (f_equal (fun l => l !! k)) in Hitems.
    rewrite !list_lookup_fmap, Hc, Hk in Hitems. cbn in Hitems. congruence. }
  cbn [fst snd]. unfold Denormalize.
  rewrite Forall_forall in Hrange.
  destruct (Hrange dp (list_elem_of_lookup_2 _ _ _ Hk)) as [_ Hlt].
  rewrite (Hmean _ Hlt). f_equal. ring.
Qed.

(** A second [Normalize] forgets the means: on a matrix that has been
    normalised it leaves every rating as it is and overwrites [itemMean]
    with zeros, so that [Denormalize] no longer restores the original
    ratings. *)
Theorem Normalize_twice
    (data data' : list datapoint) (itemMean : list Qc) :
  Normalize data = Ok (itemMean, data') ->
  Normalize data' = Ok (replicate (length itemMean) 0, data').
Proof.
  intros Hrun.
  destruct (Normalize_inv _ _ _ Hrun)
    as (mx & Hmx & Hpos & Hlen & Hnn & _ & _ & Hdata).
  assert (map item data' = map item data) as Hitems.
  { rewrite Hdata, map_map. reflexivity. }
  assert (Forall (fun d => - (1) < item d) data') as Hnn'.
  { rewrite Hdata. apply Forall_map. exact Hnn. }
  assert (forall j, item_mean data' j = 0) as Hzero.
  { intros j. pose proof (centred_sum data j Hnn) as Hs. rewrite <- Hdata in Hs.
    unfold item_mean. destruct (ratings_of data' j); [reflexivity|].
    rewrite Hs. unfold Qcdiv. ring. }
  rewrite <- Hitems in Hmx.
  destruct (Normalize_itemMean data' mx Hnn' Hmx Hpos)
    as (im2 & data2 & Hrun2 & _ & _ & _).
  destruct (Normalize_inv _ _ _ Hrun2)
    as (mx2 & Hmx2 & _ & Hlen2 & _ & Hmean2 & _ & Hdata2).
  assert (mx2 = mx) as -> by congruence.
  rewrite Hrun2. do 2 f_equal.
  - apply list_eq. intros j. destruct (decide (j < length im2)%nat) as [Hj|Hj].
    + rewrite (Hmean2 _ Hj), Hzero, lookup_replicate_2 by lia. reflexivity.
    + rewrite (proj2 (lookup_ge_None im2 j)) by lia. symmetry.
      apply lookup_ge_None. rewrite length_replicate. lia.
  - rewrite Hdata2. transitivity (map (fun x => x) data'); [|apply map_id].
    apply map_ext. intros [u it r]. unfold centred. cbn [user item rating].
    rewrite Hzero. f_equal. ring.
Qed.

(** *** How [Normalize] can end *)

Lemma sum_loop_undefined (mx : Qc) (data : list datapoint) :
  forall acc : list Qc * list nat,
    length acc.1 = Z.to_nat (Qfloor (mx + 1)%Qc) ->
    0 <= mx ->
    Forall (fun d => item d <= mx) data ->
    Exists (fun d => item d <= - (1)) data ->
    foldM sum_step data acc = Undefined.
Proof.
  induction data as [|dp data IH]; intros [im rn] Hlen Hmx Hle Hneg.
  - inversion Hneg.
  - inversion Hle as [|? ? Hdp Hle']; subst. cbn [foldM fst] in *.
    destruct (Qclt_le_dec (- (1)) (item dp)) as [Hab|Hbelow].
    2: { replace (sum_step (im, rn) dp)
           with (@Undefined (list Qc * list nat))
           by (unfold sum_step; rewrite (to_size_t_below _ Hbelow); reflexivity).
         reflexivity. }
    replace (sum_step (im, rn) dp)
      with (Ok (alter (fun m => m + rating dp) (Z.to_nat (Qfloor (item dp))) im,
                alter (fun n => (n + 1)%nat) (Z.to_nat (Qfloor (item dp))) rn)).
    2: { unfold sum_step. rewrite (to_size_t_above _ Hab), mbind_Ok.
         rewrite decide_True
           by (rewrite Hlen; apply item_index_lt; assumption).
         reflexivity. }
    rewrite mbind_Ok. apply IH.
    + cbn [fst] in *. rewrite length_alter. exact Hlen.
    + exact Hmx.
    + exact Hle'.
    + inversion Hneg as [? ? Hn|? ? Hn]; subst; [|exact Hn].
      exfalso. exact (Qclt_not_le _ _ Hab Hn).
Qed.

(** The ways [Normalize] ends. On a matrix without columns [arma::max]
    throws. When every item id is above -1 and one of them is 0 or more,
    the call returns (an id between -1 and 0 is cast to 0). When every id
    lies between -1 and 0, [itemMean] has no entry and the first access
    to it is out of bounds. When one id is 0 or more and another is -1 or
    less, the cast of the latter to [size_t] is reached and the call has
    no defined behaviour. *)
Theorem Normalize_outcome (data : list datapoint) :
  (data = [] ->
   Normalize data = Raises (logic_error "max(): object has no elements")) /\
  (Forall (fun d => - (1) < item d) data ->
   Exists (fun d => 0 <= item d) data ->
   exists itemMean data', Normalize data = Ok (itemMean, data')) /\
  (data <> [] -> Forall (fun d => - (1) < item d /\ item d < 0) data ->
   Normalize data
   = Raises (logic_error "Mat::operator(): index out of bounds")) /\
  (Exists (fun d => 0 <= item d) data ->
   Exists (fun d => item d <= - (1)) data ->
   Normalize data = Undefined).
Proof.
  split; [intros ->; reflexivity|].
  destruct data as [|dp0 data0].
  { split; [intros _ Hex; inversion Hex|].
    split; [intros Hne; destruct Hne; reflexivity|].
    intros Hex; inversion Hex. }
  set (data := dp0 :: data0).
  destruct (arma_max (map item data)) as [mx| |] eqn:Hmx; try discriminate.
  pose proof (arma_max_ge _ _ Hmx) as Hge. rewrite Forall_map in Hge.
  assert (Exists (fun d => 0 <= item d) data -> 0 <= mx) as Hmx0.
  { intros Hex. apply Exists_exists in Hex as (d & Hd & H0).
    rewrite Forall_forall in Hge. apply Qcle_trans with (item d); auto. }
  split; [|split].
  - intros Hab Hex.
    destruct (Normalize_itemMean data mx Hab Hmx (Hmx0 Hex))
      as (im & data' & Hrun & _).
    exists im, data'. exact Hrun.
  - intros _ Hall.
    assert (In_range : - (1) < mx /\ mx < 0).
    { assert (exists d, d ∈ data /\ item d = mx) as (d & Hd & <-).
      { clear -Hmx. subst data. cbn in Hmx. injection Hmx as <-.
        revert dp0. induction data0 as [|d1 data1 IH]; intros dp0; cbn.
        - exists dp0. split; [left | reflexivity].
        - destruct (IH (if Qle_bool (item dp0) (item d1) then d1 else dp0))
            as (d & Hd & Hm).
          exists d. split.
          + apply elem_of_cons in Hd as [->|Hd].
            * destruct (Qle_bool (item dp0) (item d1));
                [right; left | left].
            * right; right; exact Hd.
          + rewrite Hm. unfold Qcmax.
            destruct (Qle_bool (item dp0) (item d1)); reflexivity. }
      rewrite Forall_forall in Hall. apply Hall, Hd. }
    destruct In_range as [Hlo Hhi].
    assert (Z.to_nat (Qfloor (mx + 1)%Qc) = 0%nat) as Hnum.
    { rewrite Qfloor_Qc_succ.
      assert (Qfloor mx < 0)%Z; [|lia].
      apply Z.lt_nge. intros Hfl.
      assert (0 <= mx) as H0; [|exact (Qclt_not_le _ _ Hhi H0)].
      apply Qcle_trans with (Q2Qc (inject_Z (Qfloor mx))).
      - unfold Qcle. cbn [this Q2Qc]. rewrite !Qred_correct.
        change 0%Q with (inject_Z 0). rewrite <- Zle_Qle. exact Hfl.
      - unfold Qcle. cbn [this Q2Qc]. rewrite Qred_correct. apply Qfloor_le. }
    unfold Normalize. rewrite Hmx, mbind_Ok.
    rewrite to_size_t_above, mbind_Ok, Hnum.
    2: { apply Qclt_trans with mx; [exact Hlo|].
         apply Qclt_minus_iff. replace (mx + 1 + - mx) with 1 by ring.
         reflexivity. }
    inversion Hall as [|? ? [Hab0 _] _]; subst.
    cbn [replicate].
    assert (foldM sum_step data ([], [])
            = Raises (logic_error "Mat::operator(): index out of bounds")) as ->;
      [|reflexivity].
    subst data. cbn [foldM].
    replace (sum_step ([], []) dp0)
      with (@Raises (list Qc * list nat)
              (logic_error "Mat::operator(): index out of bounds")).
    2: { unfold sum_step. rewrite (to_size_t_above _ Hab0), mbind_Ok.
         cbn [length]. rewrite decide_False by lia. reflexivity. }
    reflexivity.
  - intros Hex Hneg. specialize (Hmx0 Hex).
    unfold Normalize. rewrite Hmx, mbind_Ok.
    rewrite to_size_t_above, mbind_Ok.
    2: { apply Qclt_le_trans with 0; [reflexivity|].
         apply Qcle_trans with mx; [exact Hmx0|].
         apply Qcle_minus_iff. replace (mx + 1 + - mx) with 1 by ring.
         discriminate. }
    rewrite (sum_loop_undefined mx data);
      [reflexivity| |exact Hmx0|exact Hge|exact Hneg].
    cbn [fst]. apply length_replicate.
Qed.

(** The item ids -1/2 and 2: the first is cast to 0 and the call
    returns with three means. The item id -1/2 alone: [itemMean] has no
    entry, and the first access is out of bounds. *)
Example Normalize_casts_small_negative_id :
  exists itemMean data',
    Normalize [Datapoint 0 (Q2Qc (-1 # 2)) (Q2Qc 3);
               Datapoint (Q2Qc 1) (Q2Qc 2) (Q2Qc 5)]
    = Ok (itemMean, data') /\
    length itemMean = 3%nat.
Proof. eexists _, _. split; [vm_compute; reflexivity | reflexivity]. Qed.

Example Normalize_small_negative_id_alone :
  Normalize [Datapoint 0 (Q2Qc (-1 # 2)) (Q2Qc 3)]
  = Raises (logic_error "Mat::operator(): index out of bounds").
Proof. vm_compute. reflexivity. Qed.

(** What [Normalize] leaves for the sample data. *)
Definition sample_normalized : list Qc * list datapoint :=
  match Normalize sample_data with
  | Ok r => r
  | _ => ([], [])
  end.

Lemma sample_normalized_by_Normalize :
  Normalize sample_data = Ok (sample_normalized.1, sample_normalized.2).
Proof. vm_compute. reflexivity. Qed.

Lemma Denormalize_batch_is_scalar_witness :
  Denormalize_batch [Q2Qc 1; Q2Qc 3] [(0, 1); (1, 0); (2, 5)]%nat
                    [Q2Qc 0; Q2Qc 2]
  = mapM (fun cp => Denormalize [Q2Qc 1; Q2Qc 3] cp.1.1 cp.1.2 cp.2)
         (zip [(0, 1); (1, 0); (2, 5)]%nat [Q2Qc 0; Q2Qc 2]).
Proof.
  apply (Denormalize_batch_is_scalar [Q2Qc 1; Q2Qc 3]
           [(0, 1); (1, 0); (2, 5)]%nat [Q2Qc 0; Q2Qc 2]).
  cbn. lia.
Defined.

Lemma Denormalize_after_Normalize_witness :
  exists mx,
    arma_max (map item sample_data) = Ok mx /\
    length (ItemMean sample_normalized.1) = Z.to_nat (Qfloor mx + 1) /\
    forall (u i : nat) (r : Qc),
      Denormalize sample_normalized.1 u i r
      = if decide (Z.of_nat i <= Qfloor mx)%Z
        then Ok (r + item_mean sample_data i)
        else Raises (logic_error "Mat::operator(): index out of bounds").
Proof.
  apply (Denormalize_after_Normalize sample_data sample_normalized.2).
  vm_compute. reflexivity.
Defined.

Lemma Normalize_centres_witness :
  Qcsum (ratings_of sample_normalized.2 1) = 0 /\
  item_mean sample_normalized.2 1 = 0.
Proof.
  apply (Normalize_centres sample_data sample_normalized.2 sample_normalized.1 1).
  vm_compute. reflexivity.
Defined.

Lemma Normalize_Denormalize_batch_witness :
  Denormalize_batch sample_normalized.1 [(0, 1); (1, 1); (2, 3)]%nat
                    (map rating sample_normalized.2)
  = Ok (map rating sample_data).
Proof.
  apply (Normalize_Denormalize_batch sample_data sample_normalized.2
           sample_normalized.1 [(0, 1); (1, 1); (2, 3)]%nat).
  - vm_compute. reflexivity.
  - vm_compute. reflexivity.
Defined.

Lemma Normalize_twice_witness :
  Normalize sample_normalized.2
  = Ok (replicate (length sample_normalized.1) 0, sample_normalized.2).
Proof.
  apply (Normalize_twice sample_data). vm_compute. reflexivity.
Defined.

End ItemMeanNormalization.


(** ** load_csv.hpp *)

Module LoadCSV.

Section Parser.

(** The element type [T] of [arma::Mat<T>] and the [DatasetMapper] are
    template parameters; the mapper's members, [std::to_string], and
    [ColSize]/[RowSize] (declared in the class, defined in load_csv.cpp)
    are taken as they are declared. *)
Variable T : Type.
Variable DatasetMapper : Type.
Variable newDatasetMapper : nat -> DatasetMapper.
Variable Dimensionality : DatasetMapper -> nat.
Variable MapString : DatasetMapper -> string -> nat -> T * DatasetMapper.
Variable to_string : T -> string.

(** A line as Boost.Spirit reads it with
    [(numRule[setNum] | charRule[setCharClass]) % ","]: the fields whose
    semantic action ran, in order, and what [phrase_parse] returned. *)
Inductive field : Type :=
| Num (val : T)
| Chars (str : string).

Record line : Type := Line {
  fields : list field;
  canParse : bool
}.

Definition file : Type := list line.

Variable ColSize : file -> nat.
Variable RowSize : file -> nat.

(** [arma::Mat<T>]: its size and the cells written so far. Element access
    [inout(row, col)] checks its indices and throws. *)
Record Mat : Type := mkMat {
  n_rows : nat;
  n_cols : nat;
  cells : gmap (nat * nat) T
}.

Definition set_size (r c : nat) : Mat := mkMat r c ∅.

Definition mat_set (m : Mat) (row col : nat) (v : T) : result Mat :=
  if decide (row < n_rows m ∧ col < n_cols m)
  then Ok (mkMat (n_rows m) (n_cols m) (<[(row, col) := v]> (cells m)))
  else Raises (logic_error "Mat::operator(): index out of bounds").

(** The string ["\t"]. *)
Definition tab : string := String (Ascii.ascii_of_nat 9) EmptyString.

(** What the parse functions share by reference. *)
Record ParseState : Type := mkState {
  inout : Mat;
  infoSet : DatasetMapper;
  mapCols : gset nat
}.

(** The locals [row] and [progress] the lambdas capture; [col] changes
    between lines only. *)
Record cursor : Type := mkCursor {
  row : nat;
  progress : nat
}.

Definition advance (c : cursor) : cursor := mkCursor (S (row c)) (S (progress c)).

Definition map_and_store (st : ParseState) (c : cursor) (col : nat) (str : string)
  : result (ParseState * cursor) :=
  let '(v, info) := MapString (infoSet st) str (progress c) in
  m ← mat_set (inout st) (row c) col v;
  Ok (mkState m info (mapCols st), advance c).

(** The lambda [setNum]. *)
Definition setNum (col : nat) (st : ParseState) (c : cursor) (val : T)
  : result (ParseState * cursor) :=
  if decide (progress c ∈ mapCols st)
  then map_and_store st c col (to_string val)
  else m ← mat_set (inout st) (row c) col val;
       Ok (mkState m (infoSet st) (mapCols st), advance c).

(** The lambda [setCharClass]; a field that is a single tab reads as the
    empty string. *)
Definition setCharClass (col : nat) (st : ParseState) (c : cursor) (str : string)
  : result (ParseState * cursor) :=
  if decide (progress c ∈ mapCols st)
  then map_and_store st c col (if decide (str = tab) then EmptyString else str)
  else Ok (mkState (inout st) (infoSet st) ({[progress c]} ∪ mapCols st),
           advance c).

Definition parse_field (col : nat) (acc : ParseState * cursor) (f : field)
  : result (ParseState * cursor) :=
  match f with
  | Num val => setNum col acc.1 acc.2 val
  | Chars str => setCharClass col acc.1 acc.2 str
  end.

(** The [while (std::getline(inFile, line))] loop of [TranposeParseImpl],
    entered with the local [col]. *)
Fixpoint parse_lines (ls : list line) (col : nat) (st : ParseState)
  : result (bool * ParseState) :=
  match ls with
  | [] => Ok (true, st)
  | l :: ls' =>
      let oldSize := size (mapCols st) in
      acc ← foldM (parse_field col) (fields l) (st, mkCursor 0 0);
      if canParse l
      then if decide (oldSize < size (mapCols acc.1))
           then Ok (false, acc.1)
           else parse_lines ls' (S col) acc.1
      else Raises (runtime_error "LoadCSV cannot parse categories")
  end.

Definition TranposeParseImpl (f : file) (st : ParseState)
  : result (bool * ParseState) :=
  parse_lines f 0 st.

(** How [TranposeParse] returns when it does not throw. *)
Inductive exit : Type :=
| Converged
| GaveUp.

(** What is observed of a run of [TranposeParse]: how it ended, how often
    it called [TranposeParseImpl], and the last value of [parseTime]. *)
Record run : Type := mkRun {
  outcome : result (exit * ParseState);
  calls : nat;
  parseTime : nat
}.

(** The [while (!TranposeParseImpl(...))] loop. [fuel] bounds the number
    of iterations the model follows. [parseTime] is a [size_t]; it is
    shown below to stay at or below [n_rows], so it is counted in [nat]. *)
Fixpoint retry (fuel : nat) (f : file) (st : ParseState) (parseTime calls : nat)
  : option run :=
  match fuel with
  | O => None
  | S fuel' =>
      match TranposeParseImpl f st with
      | Ok (true, st') => Some (mkRun (Ok (Converged, st')) (S calls) parseTime)
      | Ok (false, st') =>
          let parseTime' := S parseTime in
          let st'' := mkState (inout st')
                              (newDatasetMapper (n_rows (inout st')))
                              (mapCols st') in
          if decide (parseTime' = n_rows (inout st''))
          then Some (mkRun (Ok (GaveUp, st'')) (S calls) parseTime')
          else retry fuel' f st'' parseTime' (S calls)
      | Raises e => Some (mkRun (Raises e) (S calls) parseTime)
      | Undefined => Some (mkRun Undefined (S calls) parseTime)
      end
  end.

(** The matrix [TranposeParse] sizes before it parses. *)
Definition initial_state (f : file) : ParseState :=
  let info := newDatasetMapper (ColSize f) in
  mkState (set_size (Dimensionality info) (RowSize f)) info ∅.

Definition TranposeParse (fuel : nat) (f : file) : option run :=
  retry fuel f (initial_state f) 0 0.

(** *** The parse never resizes the matrix *)

Lemma mat_set_n_rows (m m' : Mat) (r c : nat) (v : T) :
  mat_set m r c v = Ok m' -> n_rows m' = n_rows m.
Proof.
  unfold mat_set. case_decide; [|discriminate]. intros [= <-]. reflexivity.
Qed.

Lemma map_and_store_n_rows st c col str st' c' :
  map_and_store st c col str = Ok (st', c') ->
  n_rows (inout st') = n_rows (inout st).
Proof.
  unfold map_and_store. destruct (MapString _ _ _) as [v info].
  destruct (mat_set _ _ _ _) as [m| |] eqn:E; try discriminate.
  rewrite mbind_Ok. intros [= <- _]. cbn. eapply mat_set_n_rows, E.
Qed.

Lemma parse_field_n_rows col acc fld acc' :
  parse_field col acc fld = Ok acc' ->
  n_rows (inout acc'.1) = n_rows (inout acc.1).
Proof.
  destruct acc as [st c], acc' as [st' c'], fld as [val|str]; cbn [parse_field fst snd].
  - unfold setNum. case_decide.
    + apply map_and_store_n_rows.
    + destruct (mat_set _ _ _ _) as [m| |] eqn:E; try discriminate.
      rewrite mbind_Ok. intros [= <- _]. cbn. eapply mat_set_n_rows, E.
  - unfold setCharClass. case_decide.
    + apply map_and_store_n_rows.
    + intros [= <- _]. reflexivity.
Qed.

Lemma parse_fields_n_rows col fs : forall acc acc',
  foldM (parse_field col) fs acc = Ok acc' ->
  n_rows (inout acc'.1) = n_rows (inout acc.1).
Proof.
  induction fs as [|fld fs IH]; intros acc acc'; cbn [foldM].
  - intros [= <-]. reflexivity.
  - destruct (parse_field col acc fld) as [acc1| |] eqn:E; try discriminate.
    rewrite mbind_Ok. intros H. rewrite (IH _ _ H). eapply parse_field_n_rows, E.
Qed.

Lemma parse_lines_n_rows ls : forall col st b st',
  parse_lines ls col st = Ok (b, st') ->
  n_rows (inout st') = n_rows (inout st).
Proof.
  induction ls as [|l ls IH]; intros col st b st'; cbn [parse_lines].
  - intros [= _ <-]. reflexivity.
  - destruct (foldM _ _ _) as [acc| |] eqn:E; try discriminate.
    rewrite mbind_Ok. apply parse_fields_n_rows in E. cbn in E.
    destruct (canParse l); [|discriminate]. case_decide.
    + intros [= _ <-]. exact E.
    + intros Hrec. rewrite (IH _ _ _ _ Hrec). exact E.
Qed.

Lemma TranposeParseImpl_n_rows f st b st' :
  TranposeParseImpl f st = Ok (b, st') ->
  n_rows (inout st') = n_rows (inout st).
Proof. apply parse_lines_n_rows. Qed.

(** *** The retry loop *)

(** With [k] attempts left before [parseTime] reaches [n_rows], the loop
    ends within [k] calls, whatever [TranposeParseImpl] answers. *)
Lemma retry_terminates (f : file) (k : nat) : forall st pt c,
  pt + S k = n_rows (inout st) ->
  exists r,
    (forall fuel, S k <= fuel -> retry fuel f st pt c = Some r) /\
    calls r <= c + S k /\
    parseTime r <= n_rows (inout st) /\
    (parseTime r = n_rows (inout st) ->
       exists st', outcome r = Ok (GaveUp, st')) /\
    (forall st', outcome r = Ok (GaveUp, st') ->
       parseTime r = n_rows (inout st) /\ calls r = c + S k).
Proof.
  induction k as [|k IH]; intros st pt c Hn.
  - destruct (TranposeParseImpl f st) as [[[] st']| |] eqn:E.
    + eexists. split; [intros [|fuel] Hf; [lia|]; cbn [retry]; rewrite E; reflexivity|].
      cbn. split; [lia|]. split; [lia|]. split; [lia | discriminate].
    + pose proof (TranposeParseImpl_n_rows _ _ _ _ E) as Hr.
      eexists. split.
      { intros [|fuel] Hf; [lia|]. cbn [retry]. rewrite E. cbn [inout].
        rewrite decide_True by lia. reflexivity. }
      cbn. split; [lia|]. split; [lia|]. split; [eauto|]. intros _ _. lia.
    + eexists. split; [intros [|fuel] Hf; [lia|]; cbn [retry]; rewrite E; reflexivity|].
      cbn. split; [lia|]. split; [lia|]. split; [lia | discriminate].
    + eexists. split; [intros [|fuel] Hf; [lia|]; cbn [retry]; rewrite E; reflexivity|].
      cbn. split; [lia|]. split; [lia|]. split; [lia | discriminate].
  - destruct (TranposeParseImpl f st) as [[[] st']| |] eqn:E.
    + eexists. split; [intros [|fuel] Hf; [lia|]; cbn [retry]; rewrite E; reflexivity|].
      cbn. split; [lia|]. split; [lia|]. split; [lia | discriminate].
    + pose proof (TranposeParseImpl_n_rows _ _ _ _ E) as Hr.
      destruct (IH (mkState (inout st') (newDatasetMapper (n_rows (inout st')))
                            (mapCols st')) (S pt) (S c))
        as (r & Hrun & Hc & Hle & Hp & Hg); [cbn; lia|].
      cbn [inout] in Hle, Hp, Hg. rewrite Hr in Hle, Hp, Hg.
      exists r. split.
      { intros [|fuel] Hf; [lia|]. cbn [retry]. rewrite E. cbn [inout].
        rewrite decide_False by lia. apply Hrun. lia. }
      split; [lia|]. split; [exact Hle|]. split; [exact Hp|]. intros st'' H.
      destruct (Hg _ H). lia.
    + eexists. split; [intros [|fuel] Hf; [lia|]; cbn [retry]; rewrite E; reflexivity|].
      cbn. split; [lia|]. split; [lia|]. split; [lia | discriminate].
    + eexists. split; [intros [|fuel] Hf; [lia|]; cbn [retry]; rewrite E; reflexivity|].
      cbn. split; [lia|]. split; [lia|]. split; [lia | discriminate].
Qed.

(** C9. [TranposeParse] terminates on every file: given that the matrix
    gets at least one row whenever the file has a line (what [ColSize], the
    field count of the first line, provides), the loop ends after at most
    [n_rows + 1] calls of [TranposeParseImpl], and when [parseTime] has
    reached [n_rows] the function has returned normally, without an
    exception; it gives up only at that point. *)
Theorem TranposeParse_terminates (f : file) :
  (f <> [] -> n_rows (inout (initial_state f)) <> 0) ->
  exists r,
    (forall fuel, n_rows (inout (initial_state f)) + 1 <= fuel ->
                  TranposeParse fuel f = Some r) /\
    calls r <= n_rows (inout (initial_state f)) + 1 /\
    parseTime r <= n_rows (inout (initial_state f)) /\
    (parseTime r = n_rows (inout (initial_state f)) ->
       exists e st', outcome r = Ok (e, st')) /\
    (forall st', outcome r = Ok (GaveUp, st') ->
       parseTime r = n_rows (inout (initial_state f)) /\
       calls r = n_rows (inout (initial_state f))).
Proof.
  intros Hcol. unfold TranposeParse.
  destruct (n_rows (inout (initial_state f))) as [|k] eqn:Hn.
  - destruct f as [|l f]; [|exfalso; apply Hcol; [discriminate | reflexivity]].
    eexists. split; [intros [|fuel] Hf; [lia|]; reflexivity|].
    cbn. split; [lia|]. split; [lia|]. split; [eauto | discriminate].
  - destruct (retry_terminates f k (initial_state f) 0 0)
      as (r & Hrun & Hc & Hle & Hp & Hg); [rewrite Hn; reflexivity|].
    rewrite Hn in Hle, Hp, Hg. exists r. split; [intros fuel Hf; apply Hrun; lia|].
    split; [lia|]. split; [exact Hle|]. split.
    + intros H. destruct (Hp H) as [st' ->]. eauto.
    + intros st' H. destruct (Hg _ H). lia.
Qed.

(** *** The set of categorical columns *)

(** The largest number of fields on a line of the file. *)
Definition width (f : file) : nat :=
  foldr (fun l w => Nat.max (length (fields l)) w) 0 f.

Lemma width_ge (f : file) (l : line) :
  l ∈ f -> length (fields l) <= width f.
Proof.
  induction f as [|l0 f IH]; intros Hin.
  - apply elem_of_nil in Hin. destruct Hin.
  - cbn [width foldr]. fold (width f).
    apply elem_of_cons in Hin. destruct Hin as [E|Hin]; [rewrite E; lia|].
    specialize (IH Hin). lia.
Qed.

Lemma map_and_store_mapCols st c col str st' c' :
  map_and_store st c col str = Ok (st', c') ->
  mapCols st' = mapCols st /\ progress c' = S (progress c).
Proof.
  unfold map_and_store. destruct (MapString _ _ _) as [v info].
  destruct (mat_set _ _ _ _) as [m| |]; try discriminate.
  rewrite mbind_Ok. intros [= <- <-]. split; reflexivity.
Qed.

Lemma parse_field_mapCols col acc fld acc' :
  parse_field col acc fld = Ok acc' ->
  progress acc'.2 = S (progress acc.2) /\
  mapCols acc.1 ⊆ mapCols acc'.1 /\
  mapCols acc'.1 ⊆ {[progress acc.2]} ∪ mapCols acc.1.
Proof.
  destruct acc as [st c], acc' as [st' c'], fld as [val|str];
    cbn [parse_field fst snd].
  - unfold setNum. case_decide.
    + intros E. destruct (map_and_store_mapCols _ _ _ _ _ _ E) as [-> ->].
      split; [reflexivity|]. split; set_solver.
    + destruct (mat_set _ _ _ _) as [m| |]; try discriminate.
      rewrite mbind_Ok. intros [= <- <-]. cbn.
      split; [reflexivity|]. split; set_solver.
  - unfold setCharClass. case_decide.
    + intros E. destruct (map_and_store_mapCols _ _ _ _ _ _ E) as [-> ->].
      split; [reflexivity|]. split; set_solver.
    + intros [= <- <-]. cbn. split; [reflexivity|]. split; set_solver.
Qed.

Lemma parse_fields_mapCols col fs : forall acc acc',
  foldM (parse_field col) fs acc = Ok acc' ->
  mapCols acc.1 ⊆ mapCols acc'.1 /\
  forall x, x ∈ mapCols acc'.1 ->
            x ∈ mapCols acc.1 \/
            (progress acc.2 <= x < progress acc.2 + length fs).
Proof.
  induction fs as [|fld fs IH]; intros acc acc'; cbn [foldM].
  - intros [= <-]. split; [reflexivity|]. intros x Hx. left. exact Hx.
  - destruct (parse_field col acc fld) as [acc1| |] eqn:E; try discriminate.
    rewrite mbind_Ok. intros Hrun.
    destruct (parse_field_mapCols _ _ _ _ E) as (Hp & Hsub & Hnew).
    destruct (IH _ _ Hrun) as [Hsub' Hnew'].
    split; [etrans; eassumption|].
    intros x Hx. destruct (Hnew' x Hx) as [Hx1|Hx1].
    + apply Hnew in Hx1. apply elem_of_union in Hx1 as [Hx1|Hx1].
      * apply elem_of_singleton in Hx1. right. cbn [length]. lia.
      * left. exact Hx1.
    + right. cbn [length]. lia.
Qed.

Lemma parse_lines_mapCols ls : forall col st b st',
  parse_lines ls col st = Ok (b, st') ->
  mapCols st ⊆ mapCols st' /\
  (b = true -> mapCols st' = mapCols st) /\
  (b = false -> size (mapCols st) < size (mapCols st')) /\
  forall x, x ∈ mapCols st' -> x ∈ mapCols st \/ x < width ls.
Proof.
  induction ls as [|l ls IH]; intros col st b st'; cbn [parse_lines].
  - intros [= <- <-]. split; [reflexivity|]. split; [reflexivity|].
    split; [discriminate|]. intros x Hx. left. exact Hx.
  - destruct (foldM _ _ _) as [acc| |] eqn:E; try discriminate.
    rewrite mbind_Ok. apply parse_fields_mapCols in E. cbn [fst snd progress] in E.
    destruct E as [Hsub Hnew].
    assert (forall x, x ∈ mapCols acc.1 ->
                      x ∈ mapCols st \/ x < length (fields l)) as Hnew'.
    { intros x Hx. destruct (Hnew x Hx); [left; assumption | right; lia]. }
    cbn [width foldr]. fold (width ls).
    destruct (canParse l); [|discriminate]. case_decide as Hsize.
    + intros [= <- <-]. split; [exact Hsub|]. split; [discriminate|].
      split; [intros _; exact Hsize|].
      intros x Hx. destruct (Hnew' x Hx); [left; assumption | right; lia].
    + assert (mapCols acc.1 = mapCols st) as Heq.
      { symmetry. apply set_subseteq_size_eq; [exact Hsub | lia]. }
      intros Hrec. destruct (IH _ _ _ _ Hrec) as (Hs & Ht & Hf & Hx).
      rewrite Heq in Hs, Ht, Hf, Hx. split; [exact Hs|]. split; [exact Ht|].
      split; [exact Hf|]. intros x Hin.
      destruct (Hx x Hin); [left; assumption | right; lia].
Qed.

(** [TranposeParseImpl] never removes a column from [mapCols]. It
    returns [true] exactly when it leaves the set as it found it, and
    [false] exactly when it has added a column; a column it adds is the
    position of a field on some line. *)
Theorem TranposeParseImpl_reports_new_columns
    (f : file) (st st' : ParseState) (b : bool) :
  TranposeParseImpl f st = Ok (b, st') ->
  mapCols st ⊆ mapCols st' /\
  (b = true <-> mapCols st' = mapCols st) /\
  (b = false <-> size (mapCols st) < size (mapCols st')) /\
  forall x, x ∈ mapCols st' -> x ∈ mapCols st \/ x < width f.
Proof.
  intros Hrun. destruct (parse_lines_mapCols _ _ _ _ _ Hrun) as (Hs & Ht & Hf & Hx).
  split; [exact Hs|]. split; [|split; [|exact Hx]].
  - split; [exact Ht|]. intros Heq. destruct b; [reflexivity|].
    specialize (Hf eq_refl). rewrite Heq in Hf. lia.
  - split; [exact Hf|]. intros Hlt. destruct b; [|reflexivity].
    rewrite (Ht eq_refl) in Hlt. lia.
Qed.

(** *** Termination without the counter *)

(** Columns below [w]. *)
Definition columns_below (w : nat) (X : gset nat) : Prop :=
  forall x, x ∈ X -> x < w.

Lemma columns_below_size (w : nat) (X : gset nat) :
  columns_below w X -> size X <= w.
Proof.
  intros Hb.
  assert (X ⊆ list_to_set (seq 0 w)) as Hsub.
  { intros x Hx. apply elem_of_list_to_set, elem_of_seq. specialize (Hb x Hx). lia. }
  apply subseteq_size in Hsub.
  rewrite size_list_to_set in Hsub by apply NoDup_seq.
  rewrite length_seq in Hsub. exact Hsub.
Qed.

Lemma retry_bounded (f : file) (k : nat) : forall st pt c,
  columns_below (width f) (mapCols st) ->
  width f <= size (mapCols st) + k ->
  exists r,
    (forall fuel, S k <= fuel -> retry fuel f st pt c = Some r) /\
    calls r <= c + S k.
Proof.
  induction k as [|k IH]; intros st pt c Hb Hw;
    destruct (TranposeParseImpl f st) as [[[] st']| |] eqn:E;
    try (eexists; split;
         [intros [|fuel] Hf; [lia|]; cbn [retry]; rewrite E; reflexivity
         |cbn; lia]).
  - exfalso. destruct (parse_lines_mapCols _ _ _ _ _ E) as (_ & _ & Hf & Hx).
    specialize (Hf eq_refl).
    assert (columns_below (width f) (mapCols st')) as Hb'.
    { intros x Hin. destruct (Hx x Hin) as [H1|H1]; [apply Hb, H1 | exact H1]. }
    apply columns_below_size in Hb'. lia.
  - destruct (parse_lines_mapCols _ _ _ _ _ E) as (_ & _ & Hf & Hx).
    specialize (Hf eq_refl).
    assert (columns_below (width f) (mapCols st')) as Hb'.
    { intros x Hin. destruct (Hx x Hin) as [H1|H1]; [apply Hb, H1 | exact H1]. }
    destruct (decide (S pt = n_rows (inout st'))) as [Hg|Hg].
    + eexists. split.
      { intros [|fuel] Hfu; [lia|]. cbn [retry]. rewrite E. cbn [inout].
        rewrite decide_True by exact Hg. reflexivity. }
      cbn. lia.
    + destruct (IH (mkState (inout st') (newDatasetMapper (n_rows (inout st')))
                            (mapCols st')) (S pt) (S c))
        as (r & Hrun & Hc); [exact Hb' | cbn [mapCols]; lia |].
      exists r. split.
      { intros [|fuel] Hfu; [lia|]. cbn [retry]. rewrite E. cbn [inout].
        rewrite decide_False by exact Hg. apply Hrun. lia. }
      lia.
Qed.

(** [TranposeParse] terminates on every file, whatever [ColSize] and
    [RowSize] answer and even when the test on [parseTime] never fires:
    every call that returns [false] has found a new categorical column, and
    a file has no more columns than its longest line has fields. The loop
    makes at most one call more than that. *)
Theorem TranposeParse_ends_without_counter (f : file) :
  exists r,
    (forall fuel, width f + 1 <= fuel -> TranposeParse fuel f = Some r) /\
    calls r <= width f + 1.
Proof.
  destruct (retry_bounded f (width f) (initial_state f) 0 0) as (r & Hrun & Hc).
  - intros x Hx. cbn in Hx. set_solver.
  - lia.
  - exists r. split; [|lia]. intros fuel Hf. apply Hrun. lia.
Qed.

(** *** Giving up *)

Lemma retry_gives_up (f : file) : forall fuel st pt c r st',
  retry fuel f st pt c = Some r ->
  pt <= size (mapCols st) ->
  outcome r = Ok (GaveUp, st') ->
  n_rows (inout st') = n_rows (inout st) /\
  n_rows (inout st') <= size (mapCols st') /\
  infoSet st' = newDatasetMapper (n_rows (inout st')) /\
  forall x, x ∈ mapCols st' -> x ∈ mapCols st \/ x < width f.
Proof.
  induction fuel as [|fuel IH]; intros st pt c r st'; cbn [retry]; [discriminate|].
  destruct (TranposeParseImpl f st) as [[[] st1]| |] eqn:E.
  - intros [= <-] _. cbn. discriminate.
  - destruct (parse_lines_mapCols _ _ _ _ _ E) as (_ & _ & Hf & Hx).
    pose proof (TranposeParseImpl_n_rows _ _ _ _ E) as Hr.
    specialize (Hf eq_refl). cbn [inout]. case_decide as Hg.
    + intros [= <-] Hpt. cbn. intros [= <-]. cbn. split; [exact Hr|].
      split; [lia|]. split; [reflexivity|]. exact Hx.
    + intros Hrun Hpt Hout.
      destruct (IH _ _ _ _ _ Hrun ltac:(cbn; lia) Hout) as (H0 & H1 & H2 & H3).
      cbn [inout] in H0. split; [congruence|].
      split; [exact H1|]. split; [exact H2|]. intros x Hin.
      destruct (H3 x Hin) as [H4|H4]; [cbn in H4; apply Hx, H4 | right; exact H4].
  - intros [= <-] _. cbn. discriminate.
  - intros [= <-] _. cbn. discriminate.
Qed.

(** [TranposeParse] gives up only after it has found as many categorical
    columns as the matrix has rows, so, on a file without a line longer
    than that, only when every column is categorical. It then returns with
    a mapper that has just been constructed: no string is mapped, and the
    pass that would have filled the matrix has not been made. *)
Theorem TranposeParse_gives_up
    (fuel : nat) (f : file) (r : run) (st' : ParseState) :
  TranposeParse fuel f = Some r ->
  outcome r = Ok (GaveUp, st') ->
  n_rows (inout st') = n_rows (inout (initial_state f)) /\
  n_rows (inout st') <= size (mapCols st') /\
  infoSet st' = newDatasetMapper (n_rows (inout st')) /\
  (width f <= n_rows (inout st') ->
   forall x, x ∈ mapCols st' <-> x < n_rows (inout st')).
Proof.
  intros Hrun Hout. unfold TranposeParse in Hrun.
  destruct (retry_gives_up f _ _ _ _ _ _ Hrun ltac:(cbn; lia) Hout)
    as (Hrows & Hsize & Hinfo & Hcols).
  split; [exact Hrows|split; [exact Hsize|split; [exact Hinfo|]]].
  - intros Hw.
    assert (columns_below (n_rows (inout st')) (mapCols st')) as Hb.
    { intros x Hx. destruct (Hcols x Hx) as [H1|H1]; [|lia].
      cbn in H1. apply elem_of_empty in H1. destruct H1. }
    assert (mapCols st' = list_to_set (seq 0 (n_rows (inout st')))) as Heq.
    { apply set_subseteq_size_eq.
      - intros x Hx. apply elem_of_list_to_set, elem_of_seq.
        specialize (Hb x Hx). lia.
      - rewrite size_list_to_set by apply NoDup_seq. rewrite length_seq.
        exact Hsize. }
    intros x. split; [apply Hb|]. intros Hx. rewrite Heq.
    apply elem_of_list_to_set, elem_of_seq. lia.
Qed.

(** *** A file of numbers *)

Definition is_num (fld : field) : bool :=
  match fld with
  | Num _ => true
  | Chars _ => false
  end.

(** A line that parses and holds numeric fields only. *)
Definition numeric (l : line) : bool :=
  canParse l && forallb is_num (fields l).

(** The number in field [p] of line [c] of the file. *)
Definition number_at (f : file) (p c : nat) : option T :=
  match f !! c with
  | Some l => match fields l !! p with
              | Some (Num val) => Some val
              | _ => None
              end
  | None => None
  end.

Lemma parse_fields_numeric (col : nat) (fs : list field) :
  forall (m : Mat) (info : DatasetMapper) (r pg : nat),
    forallb is_num fs = true ->
    r + length fs <= n_rows m ->
    (fs <> [] -> col < n_cols m) ->
    exists m',
      foldM (parse_field col) fs (mkState m info ∅, mkCursor r pg)
      = Ok (mkState m' info ∅, mkCursor (r + length fs) (pg + length fs)) /\
      n_rows m' = n_rows m /\ n_cols m' = n_cols m /\
      forall p c,
        cells m' !! (p, c)
        = match (if decide (c = col /\ r <= p)
                 then match fs !! (p - r) with
                      | Some (Num val) => Some val
                      | _ => None
                      end
                 else None) with
          | Some val => Some val
          | None => cells m !! (p, c)
          end.
Proof.
  induction fs as [|fld fs IH]; intros m info r pg Hnum Hrows Hcol.
  - exists m. cbn [foldM length]. rewrite !Nat.add_0_r.
    split; [reflexivity|]. split; [reflexivity|]. split; [reflexivity|].
    intros p c. case_decide; reflexivity.
  - cbn [forallb] in Hnum. apply andb_true_iff in Hnum as [Hfld Hnum].
    destruct fld as [val|str]; [|discriminate]. cbn [length] in Hrows.
    specialize (Hcol ltac:(discriminate)).
    destruct (IH (mkMat (n_rows m) (n_cols m) (<[(r, col) := val]> (cells m)))
                 info (S r) (S pg) Hnum) as (m' & Hrun & Hr & Hc & Hcells).
    { cbn. lia. }
    { intros _. exact Hcol. }
    exists m'. split.
    + cbn [foldM parse_field fst snd]. unfold setNum. cbn [progress mapCols].
      rewrite decide_False by apply not_elem_of_empty.
      unfold mat_set. cbn [inout row].
      rewrite decide_True by (split; [lia | exact Hcol]).
      rewrite !mbind_Ok. cbn [infoSet mapCols]. unfold advance.
      cbn [row progress]. rewrite Hrun. cbn [length]. do 3 f_equal; lia.
    + split; [exact Hr|]. split; [exact Hc|]. intros p c.
      rewrite Hcells. cbn [cells].
      destruct (decide (c = col /\ S r <= p)) as [[-> Hp]|Hn].
      * rewrite decide_True by (split; [reflexivity | lia]).
        replace (p - r) with (S (p - S r)) by lia. cbn [lookup list_lookup].
        destruct (fs !! (p - S r)) as [[v|]|]; try reflexivity;
          rewrite lookup_insert_ne by (intros [= ?]; lia); reflexivity.
      * destruct (decide (c = col /\ r <= p)) as [[-> Hp]|Hn'].
        -- assert (p = r) as -> by (destruct (decide (S r <= p)); [tauto | lia]).
           rewrite Nat.sub_diag. cbn [lookup list_lookup].
           apply lookup_insert_eq.
        -- rewrite lookup_insert_ne; [reflexivity|].
           intros [= <- <-]. apply Hn'. split; [reflexivity | lia].
Qed.

Lemma parse_lines_numeric (ls : list line) :
  forall (col : nat) (m : Mat) (info : DatasetMapper),
    forallb numeric ls = true ->
    Forall (fun l => length (fields l) <= n_rows m) ls ->
    col + length ls <= n_cols m ->
    exists m',
      parse_lines ls col (mkState m info ∅) = Ok (true, mkState m' info ∅) /\
      n_rows m' = n_rows m /\ n_cols m' = n_cols m /\
      forall p c,
        cells m' !! (p, c)
        = match (if decide (col <= c) then number_at ls p (c - col) else None) with
          | Some val => Some val
          | None => cells m !! (p, c)
          end.
Proof.
  induction ls as [|l ls IH]; intros col m info Hnum Hlen Hcols.
  - exists m. split; [reflexivity|]. split; [reflexivity|]. split; [reflexivity|].
    intros p c. unfold number_at. case_decide; reflexivity.
  - cbn [forallb] in Hnum. apply andb_true_iff in Hnum as [Hl Hnum].
    unfold numeric in Hl. apply andb_true_iff in Hl as [Hparse Hfs].
    inversion Hlen as [|? ? Hl1 Hlen']; subst. cbn [length] in Hcols.
    destruct (parse_fields_numeric col (fields l) m info 0 0 Hfs)
      as (m1 & Hrun1 & Hr1 & Hc1 & Hcells1); [lia | intros _; lia |].
    destruct (IH (S col) m1 info Hnum) as (m' & Hrun & Hr & Hc & Hcells).
    { rewrite Hr1. exact Hlen'. }
    { rewrite Hc1. lia. }
    exists m'. split.
    + cbn [parse_lines]. rewrite Hrun1, mbind_Ok, Hparse. cbn [fst mapCols].
      rewrite decide_False by lia. exact Hrun.
    + split; [congruence|]. split; [congruence|]. intros p c.
      rewrite Hcells, Hcells1. unfold number_at.
      destruct (decide (S col <= c)) as [Hc2|Hc2].
      * destruct (decide (col <= c)) as [_|?]; [|lia].
        destruct (decide (c = col /\ 0 <= p)) as [[? _]|_]; [lia|].
        replace (c - col) with (S (c - S col)) by lia. reflexivity.
      * destruct (decide (col <= c)) as [Hc3|Hc3].
        -- assert (c = col) as -> by lia. rewrite Nat.sub_diag.
           destruct (decide (col = col /\ 0 <= p)) as [_|Hn];
             [|exfalso; apply Hn; split; [reflexivity | lia]].
           rewrite Nat.sub_0_r. reflexivity.
        -- destruct (decide (c = col /\ 0 <= p)) as [[? _]|_]; [lia|].
           reflexivity.
Qed.

(** A file of numbers is loaded by the first call of
    [TranposeParseImpl], transposed: when every line parses and holds only
    numeric fields, no more of them than the matrix has rows, and the
    matrix has a column for every line, [TranposeParse] returns after one
    call with the mapper and [mapCols] untouched, and cell [(p, c)] of the
    matrix holds field [p] of line [c]; no other cell is written. *)
Theorem TranposeParse_numeric_file (f : file) :
  forallb numeric f = true ->
  Forall (fun l => length (fields l) <= n_rows (inout (initial_state f))) f ->
  length f <= n_cols (inout (initial_state f)) ->
  exists m,
    (forall fuel, 1 <= fuel ->
       TranposeParse fuel f
       = Some (mkRun (Ok (Converged,
                          mkState m (infoSet (initial_state f)) ∅)) 1 0)) /\
    n_rows m = n_rows (inout (initial_state f)) /\
    n_cols m = n_cols (inout (initial_state f)) /\
    forall p c, cells m !! (p, c) = number_at f p c.
Proof.
  intros Hnum Hlen Hcols.
  destruct (parse_lines_numeric f 0 (inout (initial_state f))
              (infoSet (initial_state f)) Hnum Hlen)
    as (m & Hrun & Hr & Hc & Hcells); [lia|].
  exists m. split; [|split; [exact Hr|split; [exact Hc|]]].
  - intros [|fuel] Hfuel; [lia|]. unfold TranposeParse. cbn [retry].
    unfold TranposeParseImpl.
    change (initial_state f)
      with (mkState (inout (initial_state f)) (infoSet (initial_state f)) ∅) at 1.
    rewrite Hrun. reflexivity.
  - intros p c. rewrite Hcells, decide_True by lia. rewrite Nat.sub_0_r.
    destruct (number_at f p c); [reflexivity|]. cbn. apply lookup_empty.
Qed.

End Parser.

Arguments Num {T} val.
Arguments Chars {T} str.
Arguments Line {T} fields canParse.

(** A concrete instance: integer cells, a mapper that only records its
    dimensionality, and [ColSize]/[RowSize] counting the fields of the
    first line and the lines. *)
Definition count_fields (f : file Z) : nat :=
  match f with
  | [] => 0
  | l :: _ => length (fields Z l)
  end.

Definition run_sample (fuel : nat) (f : file Z) : option (run Z nat) :=
  TranposeParse Z nat id id (fun info _ _ => (0%Z, info)) (fun _ => EmptyString)
                count_fields length fuel f.

Definition sample_file : file Z :=
  [Line [Num 1%Z; Chars "a"] true; Line [Num 2%Z; Chars "b"] true].

Lemma TranposeParse_terminates_witness :
  exists r,
    (forall fuel, 2 + 1 <= fuel -> run_sample fuel sample_file = Some r) /\
    calls Z nat r <= 2 + 1 /\
    parseTime Z nat r <= 2 /\
    (parseTime Z nat r = 2 -> exists e st', outcome Z nat r = Ok (e, st')) /\
    (forall st', outcome Z nat r = Ok (GaveUp, st') ->
       parseTime Z nat r = 2 /\ calls Z nat r = 2).
Proof.
  apply (TranposeParse_terminates Z nat id id (fun info _ _ => (0%Z, info))
           (fun _ => EmptyString) count_fields length sample_file).
  intros _. cbn. lia.
Defined.

(** The sample file converges on the second call; a file of one textual
    column makes the loop give up after its first call. *)
Example sample_file_converges :
  exists st, run_sample 3 sample_file = Some (mkRun Z nat (Ok (Converged, st)) 2 1).
Proof. eexists. vm_compute. reflexivity. Qed.

(** Were the matrix given no row for a file that has a line, the second
    call would run into the matrix bounds. *)
Example no_row_second_call_throws :
  TranposeParse Z nat id id (fun info _ _ => (0%Z, info)) (fun _ => EmptyString)
                (fun _ => 0) length 2 [Line [Chars "a"] true]
  = Some (mkRun Z nat
            (Raises (logic_error "Mat::operator(): index out of bounds")) 2 1).
Proof. vm_compute. reflexivity. Qed.

Example one_text_column_gives_up :
  exists st, run_sample 2 [Line [Chars "a"] true]
             = Some (mkRun Z nat (Ok (GaveUp, st)) 1 1).
Proof. eexists. vm_compute. reflexivity. Qed.

Definition sample_state : ParseState Z nat :=
  initial_state Z nat id id count_fields length sample_file.

(** The first call on the sample file stops at the text field of the
    first line. *)
Definition sample_state_1 : ParseState Z nat :=
  mkState Z nat (mkMat Z 2 2 {[(0, 0) := 1%Z]}) 2 {[1]}.

Lemma TranposeParseImpl_reports_new_columns_witness :
  mapCols Z nat sample_state ⊆ mapCols Z nat sample_state_1 /\
  (false = true <-> mapCols Z nat sample_state_1 = mapCols Z nat sample_state) /\
  (false = false <->
   size (mapCols Z nat sample_state) < size (mapCols Z nat sample_state_1)) /\
  forall x, x ∈ mapCols Z nat sample_state_1 ->
            x ∈ mapCols Z nat sample_state \/ x < width Z sample_file.
Proof.
  apply (TranposeParseImpl_reports_new_columns Z nat id id
           (fun info _ _ => (0%Z, info)) (fun _ => EmptyString) sample_file
           sample_state sample_state_1 false).
  vm_compute. reflexivity.
Defined.

Definition text_file : file Z := [Line [Chars "a"] true].

Definition text_state : ParseState Z nat :=
  mkState Z nat (mkMat Z 1 1 ∅) 1 {[0]}.

Lemma TranposeParse_gives_up_witness :
  n_rows Z (inout Z nat text_state)
  = n_rows Z (inout Z nat
                (initial_state Z nat id id count_fields length text_file)) /\
  n_rows Z (inout Z nat text_state) <= size (mapCols Z nat text_state) /\
  infoSet Z nat text_state = id (n_rows Z (inout Z nat text_state)) /\
  (width Z text_file <= n_rows Z (inout Z nat text_state) ->
   forall x, x ∈ mapCols Z nat text_state <->
             x < n_rows Z (inout Z nat text_state)).
Proof.
  apply (TranposeParse_gives_up Z nat id id (fun info _ _ => (0%Z, info))
           (fun _ => EmptyString) count_fields length 2 text_file
           (mkRun Z nat (Ok (GaveUp, text_state)) 1 1) text_state).
  - vm_compute. reflexivity.
  - reflexivity.
Defined.

Definition numeric_file : file Z :=
  [Line [Num 1%Z; Num 2%Z] true; Line [Num 3%Z; Num 4%Z] true;
   Line [Num 5%Z; Num 6%Z] true].

Lemma TranposeParse_numeric_file_witness :
  exists m,
    (forall fuel, 1 <= fuel ->
       run_sample fuel numeric_file
       = Some (mkRun Z nat (Ok (Converged, mkState Z nat m 2 ∅)) 1 0)) /\
    n_rows Z m = 2 /\ n_cols Z m = 3 /\
    forall p c, cells Z m !! (p, c) = number_at Z numeric_file p c.
Proof.
  apply (TranposeParse_numeric_file Z nat id id (fun info _ _ => (0%Z, info))
           (fun _ => EmptyString) count_fields length numeric_file).
  - reflexivity.
  - repeat constructor.
  - cbn. lia.
Defined.

(** *** [NonTranposeParse]: one line of the file per row of the matrix *)

Module NonTranspose.

Section Parser.

Variable T : Type.
Variable DatasetMapper : Type.
Variable newDatasetMapper : nat -> DatasetMapper.
Variable Dimensionality : DatasetMapper -> nat.
Variable MapString : DatasetMapper -> string -> nat -> T * DatasetMapper.

(** A line as [NonTranposeParse] reads it, up to twice: the values for
    which [setNum] ran under [numRule[setNum] % ","], whose result is not
    looked at, and the strings for which [setCharClass] ran under
    [charRule[setCharClass] % ","], with what that [phrase_parse]
    returned. *)
Record line : Type := Line {
  nums : list T;
  strs : list string;
  canParse : bool
}.

Definition file : Type := list line.

Variable ColSize : file -> nat.
Variable RowSize : file -> nat.

#[local] Abbreviation Mat := (Mat T).
#[local] Abbreviation n_rows := (n_rows T).
#[local] Abbreviation n_cols := (n_cols T).
#[local] Abbreviation cells := (cells T).

(** The lambda [setNum]: [inout(row, col++) = val]. *)
Definition setNum (row : nat) (acc : Mat * nat) (val : T)
  : result (Mat * nat) :=
  m ← mat_set T acc.1 row acc.2 val;
  Ok (m, S acc.2).

(** The lambda [setCharClass]: the string is mapped in dimension [row]. *)
Definition setCharClass (row : nat) (acc : Mat * DatasetMapper * nat)
    (str : string) : result (Mat * DatasetMapper * nat) :=
  let '(v, info) :=
    MapString acc.1.2 (if decide (str = tab) then EmptyString else str) row in
  m ← mat_set T acc.1.1 row acc.2 v;
  Ok (m, info, S acc.2).

(** The [while (std::getline(inFile, line))] loop, entered with the
    local [row]; [col] is 0 at the head of every iteration. *)
Fixpoint parse_lines (ls : list line) (row : nat) (st : Mat * DatasetMapper)
  : result (Mat * DatasetMapper) :=
  match ls with
  | [] => Ok st
  | l :: ls' =>
      acc ← foldM (setNum row) (nums l) (st.1, 0);
      st' ← (if decide (acc.2 ≠ n_cols acc.1)
             then acc' ← foldM (setCharClass row) (strs l) (acc.1, st.2, 0);
                  if canParse l
                  then Ok acc'.1
                  else Raises (runtime_error "LoadCSV cannot parse categories")
             else Ok (acc.1, st.2));
      parse_lines ls' (S row) st'
  end.

Definition NonTranposeParse (f : file) : result (Mat * DatasetMapper) :=
  let info := newDatasetMapper (RowSize f) in
  parse_lines f 0 (set_size T (Dimensionality info) (ColSize f), info).

Lemma mat_set_Ok (m m' : Mat) (r c : nat) (v : T) :
  mat_set T m r c v = Ok m' ->
  r < n_rows m /\ c < n_cols m /\
  m' = mkMat T (n_rows m) (n_cols m) (<[(r, c) := v]> (cells m)).
Proof.
  unfold mat_set. case_decide as Hb; [|discriminate]. intros [= <-].
  destruct Hb. repeat split; assumption.
Qed.

Lemma setNum_eq (row : nat) (m : Mat) (col : nat) (val : T) :
  setNum row (m, col) val = (m' ← mat_set T m row col val; Ok (m', S col)).
Proof. reflexivity. Qed.

Lemma setCharClass_eq (row : nat) (m : Mat) (info : DatasetMapper) (col : nat)
    (str : string) :
  setCharClass row (m, info, col) str
  = let '(v, info') :=
      MapString info (if decide (str = tab) then EmptyString else str) row in
    m' ← mat_set T m row col v; Ok (m', info', S col).
Proof. reflexivity. Qed.

Lemma setNum_loop (row : nat) (ns : list T) : forall (m m' : Mat) (col col' : nat),
  foldM (setNum row) ns (m, col) = Ok (m', col') ->
  col' = col + length ns /\
  n_rows m' = n_rows m /\ n_cols m' = n_cols m /\
  (ns <> [] -> col' <= n_cols m /\ row < n_rows m).
Proof.
  induction ns as [|v ns IH]; intros m m' col col'; cbn [foldM].
  - intros [= <- <-]. cbn. split; [lia|]. repeat split; congruence.
  - rewrite setNum_eq.
    destruct (mat_set T m row col v) as [m1| |] eqn:E; try discriminate.
    rewrite !mbind_Ok. intros Hrun.
    destruct (mat_set_Ok _ _ _ _ _ E) as (Hr & Hc & ->).
    destruct (IH _ _ _ _ Hrun) as (Hcol & Hr' & Hc' & Hfit). cbn in Hr', Hc', Hfit.
    cbn [length]. split; [lia|]. split; [exact Hr'|]. split; [exact Hc'|].
    intros _. split; [|exact Hr]. destruct ns as [|v' ns'].
    + cbn in Hcol. lia.
    + apply Hfit. discriminate.
Qed.

Lemma setCharClass_loop (row : nat) (ss : list string) :
  forall (m m' : Mat) (info info' : DatasetMapper) (col col' : nat),
    foldM (setCharClass row) ss (m, info, col) = Ok (m', info', col') ->
    col' = col + length ss /\
    n_rows m' = n_rows m /\ n_cols m' = n_cols m /\
    (ss <> [] -> col' <= n_cols m /\ row < n_rows m).
Proof.
  induction ss as [|str ss IH]; intros m m' info info' col col'; cbn [foldM].
  - intros [= <- <- <-]. cbn. split; [lia|]. repeat split; congruence.
  - rewrite setCharClass_eq.
    destruct (MapString info _ row) as [v info1].
    destruct (mat_set T m row col v) as [m1| |] eqn:E; try discriminate.
    rewrite !mbind_Ok. intros Hrun.
    destruct (mat_set_Ok _ _ _ _ _ E) as (Hr & Hc & ->).
    destruct (IH _ _ _ _ _ _ Hrun) as (Hcol & Hr' & Hc' & Hfit).
    cbn in Hr', Hc', Hfit.
    cbn [length]. split; [lia|]. split; [exact Hr'|]. split; [exact Hc'|].
    intros _. split; [|exact Hr]. destruct ss as [|str' ss'].
    + cbn in Hcol. lia.
    + apply Hfit. discriminate.
Qed.

Lemma parse_lines_Ok (ls : list line) : forall (row : nat) st st',
  parse_lines ls row st = Ok st' ->
  n_rows st'.1 = n_rows st.1 /\ n_cols st'.1 = n_cols st.1 /\
  Forall (fun l =>
            length (nums l) <= n_cols st.1 /\
            (length (nums l) = n_cols st.1 \/
             canParse l = true /\ length (strs l) <= n_cols st.1)) ls.
Proof.
  induction ls as [|l ls IH]; intros row [m info] st'; cbn [parse_lines fst snd].
  - intros [= <-]. repeat split; constructor.
  - destruct (foldM (setNum row) (nums l) (m, 0)) as [[m1 col]| |] eqn:E1;
      try discriminate.
    rewrite mbind_Ok. cbn [fst snd].
    destruct (setNum_loop _ _ _ _ _ _ E1) as (Hcol & Hr1 & Hc1 & Hfit1).
    cbn [Nat.add] in Hcol. subst col.
    assert (length (nums l) <= n_cols m) as Hle.
    { destruct (nums l) as [|v ns] eqn:En; [cbn; lia|].
      rewrite <- En in *. apply Hfit1. rewrite En. discriminate. }
    case_decide as Hne.
    + destruct (foldM (setCharClass row) (strs l) (m1, info, 0))
        as [[[m2 info2] col2]| |] eqn:E2; try discriminate.
      rewrite mbind_Ok.
      destruct (setCharClass_loop _ _ _ _ _ _ _ _ E2) as (Hcol2 & Hr2 & Hc2 & Hfit2).
      cbn [Nat.add] in Hcol2. subst col2.
      destruct (canParse l) eqn:Hp; [|discriminate]. rewrite mbind_Ok.
      cbn [fst]. intros Hrun. destruct (IH _ _ _ Hrun) as (Hr & Hc & Hall).
      cbn [fst] in Hr, Hc, Hall.
      split; [congruence|]. split; [congruence|]. constructor.
      * split; [exact Hle|]. right. split; [exact Hp|].
        destruct (strs l) as [|s0 ss] eqn:Es; [cbn; lia|].
        rewrite <- Es in *. rewrite <- Hc1. apply Hfit2. rewrite Es. discriminate.
      * rewrite Hc2, Hc1 in Hall. exact Hall.
    + rewrite mbind_Ok. intros Hrun. destruct (IH _ _ _ Hrun) as (Hr & Hc & Hall).
      cbn [fst] in Hr, Hc, Hall.
      split; [congruence|]. split; [congruence|]. constructor.
      * split; [exact Hle|]. left. rewrite <- Hc1. exact Hne.
      * rewrite Hc1 in Hall. exact Hall.
Qed.

(** [NonTranposeParse] never returns normally from a file with a line
    that does not fit: when it returns, the matrix has the size it was
    given at the start, the numbers read from each line are no more than
    the matrix has columns, and each line either filled its row with
    numbers or parsed as categories that fit the row. *)
Theorem NonTranposeParse_returns
    (f : file) (m : Mat) (info : DatasetMapper) :
  NonTranposeParse f = Ok (m, info) ->
  n_rows m = Dimensionality (newDatasetMapper (RowSize f)) /\
  n_cols m = ColSize f /\
  Forall (fun l =>
            length (nums l) <= ColSize f /\
            (length (nums l) = ColSize f \/
             canParse l = true /\ length (strs l) <= ColSize f)) f.
Proof.
  unfold NonTranposeParse. intros Hrun.
  destruct (parse_lines_Ok _ _ _ _ Hrun) as (Hr & Hc & Hall).
  cbn in Hr, Hc, Hall. repeat split; assumption.
Qed.

(** The number in field [c] of line [r]. *)
Definition number_at (f : file) (r c : nat) : option T :=
  match f !! r with
  | Some l => nums l !! c
  | None => None
  end.

Lemma setNum_loop_numeric (row : nat) (ns : list T) :
  forall (m : Mat) (col : nat),
    (ns <> [] -> row < n_rows m) ->
    col + length ns <= n_cols m ->
    exists m',
      foldM (setNum row) ns (m, col) = Ok (m', col + length ns) /\
      n_rows m' = n_rows m /\ n_cols m' = n_cols m /\
      forall r c,
        cells m' !! (r, c)
        = match (if decide (r = row /\ col <= c) then ns !! (c - col) else None) with
          | Some val => Some val
          | None => cells m !! (r, c)
          end.
Proof.
  induction ns as [|v ns IH]; intros m col Hrow Hcols.
  - exists m. cbn [foldM length]. rewrite Nat.add_0_r.
    split; [reflexivity|]. split; [reflexivity|]. split; [reflexivity|].
    intros r c. case_decide; [rewrite lookup_nil|]; reflexivity.
  - specialize (Hrow ltac:(discriminate)). cbn [length] in Hcols.
    destruct (IH (mkMat T (n_rows m) (n_cols m) (<[(row, col) := v]> (cells m)))
                 (S col)) as (m' & Hrun & Hr & Hc & Hcells).
    { intros _. exact Hrow. }
    { cbn. lia. }
    exists m'. split.
    + cbn [foldM]. rewrite setNum_eq. unfold mat_set.
      rewrite decide_True by (split; [exact Hrow | lia]).
      rewrite !mbind_Ok, Hrun. cbn [length]. do 2 f_equal. lia.
    + split; [exact Hr|]. split; [exact Hc|]. intros r c.
      rewrite Hcells. cbn [LoadCSV.cells].
      destruct (decide (r = row /\ S col <= c)) as [[-> Hp]|Hn].
      * destruct (decide (row = row /\ col <= c)) as [_|Hn];
          [|exfalso; apply Hn; split; [reflexivity | lia]].
        replace (c - col) with (S (c - S col)) by lia. cbn [lookup list_lookup].
        destruct (ns !! (c - S col)); [reflexivity|].
        apply lookup_insert_ne. intros [= ?]. lia.
      * destruct (decide (r = row /\ col <= c)) as [[-> Hp]|Hn'].
        -- assert (c = col) as -> by (destruct (decide (S col <= c)); [tauto | lia]).
           rewrite Nat.sub_diag. cbn [lookup list_lookup].
           apply lookup_insert_eq.
        -- apply lookup_insert_ne. intros [= <- <-]. apply Hn'.
           split; [reflexivity | lia].
Qed.

Lemma parse_rows_numeric (ls : list line) :
  forall (row : nat) (m : Mat) (info : DatasetMapper),
    Forall (fun l => length (nums l) = n_cols m) ls ->
    row + length ls <= n_rows m ->
    exists m',
      parse_lines ls row (m, info) = Ok (m', info) /\
      n_rows m' = n_rows m /\ n_cols m' = n_cols m /\
      forall r c,
        cells m' !! (r, c)
        = match (if decide (row <= r) then number_at ls (r - row) c else None) with
          | Some val => Some val
          | None => cells m !! (r, c)
          end.
Proof.
  induction ls as [|l ls IH]; intros row m info Hall Hrows.
  - exists m. split; [reflexivity|]. split; [reflexivity|]. split; [reflexivity|].
    intros r c. unfold number_at. case_decide; reflexivity.
  - inversion Hall as [|? ? Hl Hall']; subst. cbn [length] in Hrows.
    destruct (setNum_loop_numeric row (nums l) m 0)
      as (m1 & Hrun1 & Hr1 & Hc1 & Hcells1); [intros _; lia | lia |].
    destruct (IH (S row) m1 info) as (m' & Hrun & Hr & Hc & Hcells).
    { rewrite Hc1. exact Hall'. }
    { rewrite Hr1. lia. }
    exists m'. split.
    + cbn [parse_lines fst snd]. rewrite Hrun1, mbind_Ok. cbn [fst snd Nat.add].
      rewrite decide_False by (rewrite Hc1; intros Hne; apply Hne; exact Hl).
      rewrite mbind_Ok. exact Hrun.
    + split; [congruence|]. split; [congruence|]. intros r c.
      rewrite Hcells, Hcells1. unfold number_at.
      destruct (decide (S row <= r)) as [Hr2|Hr2].
      * destruct (decide (row <= r)) as [_|?]; [|lia].
        destruct (decide (r = row /\ 0 <= c)) as [[? _]|_]; [lia|].
        replace (r - row) with (S (r - S row)) by lia. reflexivity.
      * destruct (decide (row <= r)) as [Hr3|Hr3].
        -- assert (r = row) as -> by lia. rewrite Nat.sub_diag.
           destruct (decide (row = row /\ 0 <= c)) as [_|Hn];
             [|exfalso; apply Hn; split; [reflexivity | lia]].
           rewrite Nat.sub_0_r. reflexivity.
        -- destruct (decide (r = row /\ 0 <= c)) as [[? _]|_]; [lia|].
           reflexivity.
Qed.

(** A file of numbers is loaded row by row: when the numeric parse of
    every line yields as many values as the matrix has columns, and the
    matrix has a row for every line, [NonTranposeParse] returns normally
    with the mapper as it was constructed, and cell [(r, c)] of the matrix
    holds field [c] of line [r]; no other cell is written. *)
Theorem NonTranposeParse_numeric_file (f : file) :
  Forall (fun l => length (nums l) = ColSize f) f ->
  length f <= Dimensionality (newDatasetMapper (RowSize f)) ->
  exists m,
    NonTranposeParse f = Ok (m, newDatasetMapper (RowSize f)) /\
    n_rows m = Dimensionality (newDatasetMapper (RowSize f)) /\
    n_cols m = ColSize f /\
    forall r c, cells m !! (r, c) = number_at f r c.
Proof.
  intros Hall Hrows. unfold NonTranposeParse.
  destruct (parse_rows_numeric f 0
              (set_size T (Dimensionality (newDatasetMapper (RowSize f)))
                        (ColSize f))
              (newDatasetMapper (RowSize f)) Hall)
    as (m & Hrun & Hr & Hc & Hcells); [cbn; lia|].
  exists m. split; [exact Hrun|]. split; [exact Hr|]. split; [exact Hc|].
  intros r c. rewrite Hcells. destruct (decide (0 <= r)) as [_|?]; [|lia].
  rewrite Nat.sub_0_r. destruct (number_at f r c); [reflexivity|].
  cbn. apply lookup_empty.
Qed.

End Parser.

Definition count_nums (f : file Z) : nat :=
  match f with
  | [] => 0
  | l :: _ => length (nums Z l)
  end.

Definition load_rows (f : file Z) : result (Mat Z * nat) :=
  NonTranposeParse Z nat id id (fun info _ _ => (0%Z, info)) count_nums length f.

Definition number_rows : file Z :=
  [Line Z [1; 2]%Z ["1"; "2"] true;
   Line Z [3; 4]%Z ["3"; "4"] true].

(** A file whose second line holds a text field: the line is read as
    categories. *)
Definition mixed_rows : file Z :=
  [Line Z [1; 2]%Z ["1"; "2"] true;
   Line Z [3]%Z ["3"; "x"] true].

Lemma NonTranposeParse_returns_witness :
  n_rows Z (mkMat Z 2 2 {[(0, 0) := 1%Z; (0, 1) := 2%Z;
                          (1, 0) := 0%Z; (1, 1) := 0%Z]})
  = id (id (length mixed_rows)) /\
  n_cols Z (mkMat Z 2 2 {[(0, 0) := 1%Z; (0, 1) := 2%Z;
                          (1, 0) := 0%Z; (1, 1) := 0%Z]})
  = count_nums mixed_rows /\
  Forall (fun l =>
            length (nums Z l) <= count_nums mixed_rows /\
            (length (nums Z l) = count_nums mixed_rows \/
             canParse Z l = true /\
             length (strs Z l) <= count_nums mixed_rows)) mixed_rows.
Proof.
  apply (NonTranposeParse_returns Z nat id id (fun info _ _ => (0%Z, info))
           count_nums length mixed_rows _ 2).
  vm_compute. reflexivity.
Defined.

Lemma NonTranposeParse_numeric_file_witness :
  exists m,
    load_rows number_rows = Ok (m, 2) /\
    n_rows Z m = 2 /\ n_cols Z m = 2 /\
    forall r c, cells Z m !! (r, c) = number_at Z number_rows r c.
Proof.
  apply (NonTranposeParse_numeric_file Z nat id id (fun info _ _ => (0%Z, info))
           count_nums length number_rows).
  - repeat constructor.
  - cbn. lia.
Defined.

End NonTranspose.

End LoadCSV.

(** ** kde_impl.hpp, kde_rules.hpp *)

Module KDE.

(** *** C++ [double] *)

(** The operations the KDE code applies to a [double]. [of_size_t] is the
    implicit conversion of a [size_t] operand. *)
Class Scalar (D : Type) : Type := {
  d0 : D;
  d1 : D;
  dadd : D -> D -> D;
  dsub : D -> D -> D;
  dmul : D -> D -> D;
  ddiv : D -> D -> D;
  dltb : D -> D -> bool;
  dleb : D -> D -> bool;
  of_size_t : nat -> D
}.

(** IEEE 754 binary64, as compiled. A [size_t] below 2^63 converts as
    C++ converts it. *)
#[global] Instance binary64 : Scalar float := {|
  d0 := 0%float;
  d1 := 1%float;
  dadd := PrimFloat.add;
  dsub := PrimFloat.sub;
  dmul := PrimFloat.mul;
  ddiv := PrimFloat.div;
  dltb := PrimFloat.ltb;
  dleb := PrimFloat.leb;
  of_size_t := fun n => PrimFloat.of_uint63 (Uint63.of_Z (Z.of_nat n))
|}.

(** Exact arithmetic, for what is stated up to rounding. Division is
    that of the rationals, which is 0 for a divisor 0 where binary64 gives
    an infinity or a NaN: nothing is stated in exact arithmetic about a
    division. *)
#[global] Instance exact : Scalar Qc := {|
  d0 := 0%Qc;
  d1 := 1%Qc;
  dadd := Qcplus;
  dsub := Qcminus;
  dmul := Qcmult;
  ddiv := Qcdiv;
  dltb := fun a b => negb (Qle_bool b a);
  dleb := fun a b => Qle_bool a b;
  of_size_t := fun n => Q2Qc (inject_Z (Z.of_nat n))
|}.

(** The traverser classes a tree type offers. *)
Inductive traverser : Type :=
| DualTreeTraverser
| BreadthFirstDualTreeTraverser.

(** A pointer member: the address of a heap object, or the indeterminate
    value of a member no constructor initialised. *)
Inductive pointer : Type :=
| Indeterminate
| At (l : positive).

Section Facade.

Context {D : Type} `{Scalar D}.

(** The template parameters [MatType], [KernelType], [MetricType] and
    [TreeType] with the members the facade uses, the rule class
    [KDERules<MetricType, KernelType, Tree>] (its member functions are
    defined in kde_rules_impl.hpp) and the traversal
    [Tree::template <traverser><RuleType>::Traverse], which can end in
    an exception or in undefined behaviour as any call can. The rules
    hold [estimations] by reference: [densities] reads that vector as
    the rules have left it. *)
Variable MatType : Type.
Variable n_cols : MatType -> nat.
Variable KernelType : Type.
Variable newKernel : D -> KernelType.
Variable MetricType : Type.
Variable newMetric : MetricType.
Variable Tree : Type.
Variable Dataset : Tree -> MatType.
Variable newTree : MatType -> Tree.
Variable newTreeRearranging : MatType -> Tree * list nat.
Variable RearrangesDataset : bool.
Variable RuleType : Type.
Variable newRules :
  MatType -> MatType -> list D -> D -> D -> list nat -> MetricType ->
  KernelType -> RuleType.
Variable densities : RuleType -> list D.
Variable Traverse : traverser -> RuleType -> Tree -> Tree -> result RuleType.

(** The heap objects the facade creates and destroys, and what has been
    written to [Log::Warn]. *)
Record World : Type := mkWorld {
  trees : gmap positive Tree;
  kernels : gmap positive KernelType;
  warnings : list string
}.

(** The data members of [KDE]. *)
Record KDE : Type := mkKDE {
  kernel : pointer;
  relError : D;
  absError : D;
  breadthFirst : bool;
  ownsReferenceTree : bool;
  trained : bool;
  referenceTree : pointer
}.

Definition new_tree (w : World) (t : Tree) : positive * World :=
  let l := fresh (dom (trees w)) in
  (l, mkWorld (<[l := t]> (trees w)) (kernels w) (warnings w)).

Definition new_kernel (w : World) (k : KernelType) : positive * World :=
  let l := fresh (dom (kernels w)) in
  (l, mkWorld (trees w) (<[l := k]> (kernels w)) (warnings w)).

(** [*p] on a tree pointer. *)
Definition deref_tree (w : World) (p : pointer) : result Tree :=
  match p with
  | At l => match trees w !! l with
            | Some t => Ok t
            | None => Undefined
            end
  | Indeterminate => Undefined
  end.

Definition deref_kernel (w : World) (p : pointer) : result KernelType :=
  match p with
  | At l => match kernels w !! l with
            | Some k => Ok k
            | None => Undefined
            end
  | Indeterminate => Undefined
  end.

(** [delete p] on a tree pointer. *)
Definition delete_tree (w : World) (p : pointer) : result World :=
  match p with
  | At l => match trees w !! l with
            | Some _ => Ok (mkWorld (delete l (trees w)) (kernels w) (warnings w))
            | None => Undefined
            end
  | Indeterminate => Undefined
  end.

Definition delete_kernel (w : World) (p : pointer) : result World :=
  match p with
  | At l => match kernels w !! l with
            | Some _ => Ok (mkWorld (trees w) (delete l (kernels w)) (warnings w))
            | None => Undefined
            end
  | Indeterminate => Undefined
  end.

Definition Log_Warn (w : World) (msg : string) : World :=
  mkWorld (trees w) (kernels w) (warnings w ++ [msg]).

(** [Log::Fatal << msg << std::endl] throws. *)
Definition Log_Fatal {A : Type} (msg : string) : result A :=
  Raises (runtime_error msg).

(** [BuildTree]: the overload is chosen by
    [TreeTraits<TreeType>::RearrangesDataset]; only the first one fills
    [oldFromNew]. *)
Definition BuildTree (dataset : MatType) (oldFromNew : list nat)
  : Tree * list nat :=
  if RearrangesDataset then newTreeRearranging dataset
  else (newTree dataset, oldFromNew).

(** [KDE(bandwidth, relError, absError, breadthFirst)]. *)
Definition KDE_new (w : World) (bandwidth relError absError : D)
    (breadthFirst : bool) : result (KDE * World) :=
  let '(k, w) := new_kernel w (newKernel bandwidth) in
  let this := mkKDE (At k) relError absError breadthFirst false false
                    Indeterminate in
  let w := if dltb d0 relError && dltb d0 absError
           then Log_Warn w "Absolute and relative error tolerances will be sumed up"
           else w in
  if dltb relError d0 || dltb absError d0
  then Log_Fatal "Error tolerance can't be less than 0"
  else Ok (this, w).

(** The constructors the copy constructor calls. It is written
    [new KernelType(other.kernel)] and [new Tree(other.referenceTree)]:
    the argument is the pointer member itself, a [KernelType*] and a
    [Tree*], not the object it points at. What a kernel or tree type
    builds from such an address, and whether it reads the heap for it,
    is that type's affair. (For a kernel or tree type without a
    constructor that takes one, the copy constructor, and with it
    [operator=], does not compile.) *)
Variable KernelType_of_pointer : World -> pointer -> result KernelType.
Variable Tree_of_pointer : World -> pointer -> result Tree.

(** [KDE(const KDE& other)]. An untrained original leaves the copy's
    [referenceTree] unset. *)
Definition KDE_copy (w : World) (other : KDE) : result (KDE * World) :=
  kern ← KernelType_of_pointer w (kernel other);
  let '(k, w) := new_kernel w kern in
  if trained other
  then if ownsReferenceTree other
       then t ← Tree_of_pointer w (referenceTree other);
            let '(l, w) := new_tree w t in
            Ok (mkKDE (At k) (relError other) (absError other)
                      (breadthFirst other) (ownsReferenceTree other)
                      (trained other) (At l), w)
       else Ok (mkKDE (At k) (relError other) (absError other)
                      (breadthFirst other) (ownsReferenceTree other)
                      (trained other) (referenceTree other), w)
  else Ok (mkKDE (At k) (relError other) (absError other)
                 (breadthFirst other) (ownsReferenceTree other)
                 (trained other) Indeterminate, w).

(** [~KDE()]. *)
Definition KDE_delete (w : World) (this : KDE) : result World :=
  w ← (if ownsReferenceTree this then delete_tree w (referenceTree this)
       else Ok w);
  delete_kernel w (kernel this).

(** [Train(const MatType& referenceSet)]. *)
Definition Train (w : World) (this : KDE) (referenceSet : MatType)
  : KDE * World :=
  let '(l, w) := new_tree w (newTree referenceSet) in
  (mkKDE (kernel this) (relError this) (absError this) (breadthFirst this)
         true true (At l), w).

(** [Train(Tree& referenceTree)], the argument being the tree at [l]. *)
Definition Train_tree (w : World) (this : KDE) (l : positive)
  : result (KDE * World) :=
  w ← (if ownsReferenceTree this then delete_tree w (referenceTree this)
       else Ok w);
  Ok (mkKDE (kernel this) (relError this) (absError this) (breadthFirst this)
            false true (At l), w).

(** The traverser class [Evaluate] instantiates. *)
Definition Evaluate_traverser (this : KDE) : traverser := DualTreeTraverser.

(** The part both [Evaluate] overloads share: rules, traversal and
    [estimations /= referenceTree->Dataset().n_cols]. *)
Definition traverse_and_normalize (w : World) (this : KDE) (queryTree : Tree)
    (oldFromNewQueries : list nat) (estimations : list D) : result (list D) :=
  refTree ← deref_tree w (referenceTree this);
  kern ← deref_kernel w (kernel this);
  let rules := newRules (Dataset refTree) (Dataset queryTree) estimations
                        (relError this) (absError this) oldFromNewQueries
                        newMetric kern in
  rules ← Traverse (Evaluate_traverser this) rules queryTree refTree;
  Ok (map (fun x => ddiv x (of_size_t (n_cols (Dataset refTree))))
          (densities rules)).

(** [Evaluate(const MatType& querySet, arma::vec& estimations)]: the
    vector as it is left, and the heap after [delete queryTree]. *)
Definition Evaluate (w : World) (this : KDE) (querySet : MatType)
    (estimations : list D) : result (list D * World) :=
  let '(queryTree, oldFromNewQueries) := BuildTree querySet [] in
  let '(q, w) := new_tree w queryTree in
  estimations ← traverse_and_normalize w this queryTree oldFromNewQueries
                                       estimations;
  w ← delete_tree w (At q);
  Ok (estimations, w).

(** [Evaluate(Tree& queryTree, oldFromNewQueries, estimations)], the
    tree being the one at [q]. *)
Definition Evaluate_tree (w : World) (this : KDE) (q : positive)
    (oldFromNewQueries : list nat) (estimations : list D)
  : result (list D) :=
  queryTree ← deref_tree w (At q);
  traverse_and_normalize w this queryTree oldFromNewQueries estimations.

(** [RelativeError(newError)] and [AbsoluteError(newError)]. *)
Definition RelativeError (this : KDE) (newError : D) : result KDE :=
  if dltb newError d0 || dltb d1 newError
  then Log_Fatal "Relative error tolerance must be a value between 0 and 1"
  else Ok (mkKDE (kernel this) newError (absError this) (breadthFirst this)
                 (ownsReferenceTree this) (trained this) (referenceTree this)).

Definition AbsoluteError (this : KDE) (newError : D) : result KDE :=
  if dltb newError d0
  then Log_Fatal "Absolute error tolerance must be a value greater or equal to 0"
  else Ok (mkKDE (kernel this) (relError this) newError (breadthFirst this)
                 (ownsReferenceTree this) (trained this) (referenceTree this)).

(** *** Tolerances *)

(** The same object with another value of the [breadthFirst] member. *)
Definition with_breadthFirst (b : bool) (this : KDE) : KDE :=
  mkKDE (kernel this) (relError this) (absError this) b
        (ownsReferenceTree this) (trained this) (referenceTree this).

(** The constructor tests its tolerances against 0 only. *)
Lemma KDE_new_spec (w : World) (bandwidth relError absError : D) (bf : bool) :
  (dltb relError d0 || dltb absError d0 = true /\
   KDE_new w bandwidth relError absError bf
   = Log_Fatal "Error tolerance can't be less than 0") \/
  (dltb relError d0 || dltb absError d0 = false /\
   exists k w',
     KDE_new w bandwidth relError absError bf
     = Ok (mkKDE (At k) relError absError bf false false Indeterminate, w') /\
     trees w' = trees w /\ kernels w !! k = None /\
     kernels w' = <[k := newKernel bandwidth]> (kernels w)).
Proof.
  unfold KDE_new, new_kernel.
  destruct (dltb relError d0 || dltb absError d0) eqn:E.
  - left. split; reflexivity.
  - right. split; [reflexivity|].
    exists (fresh (dom (kernels w))).
    destruct (dltb d0 relError && dltb d0 absError);
      eexists; (split; [reflexivity|]); cbn;
      (split; [reflexivity|]); (split; [|reflexivity]);
      apply not_elem_of_dom, is_fresh.
Qed.

(** *** Ownership of the reference tree *)

(** C5. The ownership mode is the boolean member [ownsReferenceTree].
    [Train(referenceSet)] leaves the instance trained and owning a tree it
    has just allocated over the reference set; [Train(referenceTree)]
    leaves it trained, not owning, pointing at the supplied tree, which
    stays alive, and a tree that was owned before the call is gone from the
    heap. *)
Theorem Train_ownership
    (w : World) (this : KDE) (referenceSet : MatType) (l : positive) (t : Tree) :
  trees w !! l = Some t ->
  (ownsReferenceTree this = true ->
   exists l0, referenceTree this = At l0 /\ l0 <> l /\ is_Some (trees w !! l0)) ->
  (ownsReferenceTree (Train w this referenceSet).1 = true /\
   trained (Train w this referenceSet).1 = true /\
   exists l1,
     referenceTree (Train w this referenceSet).1 = At l1 /\
     trees w !! l1 = None /\
     trees (Train w this referenceSet).2 !! l1 = Some (newTree referenceSet)) /\
  exists this' w',
    Train_tree w this l = Ok (this', w') /\
    ownsReferenceTree this' = false /\
    trained this' = true /\
    referenceTree this' = At l /\
    trees w' !! l = Some t /\
    (forall l0, ownsReferenceTree this = true -> referenceTree this = At l0 ->
                trees w' !! l0 = None) /\
    (ownsReferenceTree this = false -> w' = w).
Proof.
  intros Hl Hown. split.
  - unfold Train, new_tree. cbn. repeat split.
    exists (fresh (dom (trees w))). split; [reflexivity|]. split.
    + apply not_elem_of_dom, is_fresh.
    + apply lookup_insert_eq.
  - unfold Train_tree. destruct (ownsReferenceTree this) eqn:E.
    + destruct (Hown eq_refl) as (l0 & Hp & Hne & [t0 Ht0]).
      rewrite Hp. unfold delete_tree. rewrite Ht0, mbind_Ok.
      eexists _, _. split; [reflexivity|]. cbn.
      repeat split; try reflexivity.
      * rewrite lookup_delete_ne by exact Hne. exact Hl.
      * intros l0' _ [= <-]. apply lookup_delete_eq.
      * discriminate.
    + rewrite mbind_Ok. eexists _, _. split; [reflexivity|]. cbn.
      repeat split; try reflexivity; [exact Hl | discriminate].
Qed.

(** [Train(referenceSet)] does not release a tree the instance owns: the
    tree stays on the heap and the instance no longer points at it. *)
Lemma Train_keeps_owned_tree
    (w : World) (this : KDE) (referenceSet : MatType) (l0 : positive) (t0 : Tree) :
  ownsReferenceTree this = true ->
  referenceTree this = At l0 ->
  trees w !! l0 = Some t0 ->
  trees (Train w this referenceSet).2 !! l0 = Some t0 /\
  referenceTree (Train w this referenceSet).1 <> At l0.
Proof.
  intros _ _ Hl0. unfold Train, new_tree. cbn.
  assert (fresh (dom (trees w)) <> l0) as Hne.
  { intros E. apply (is_fresh (dom (trees w))), elem_of_dom. rewrite E. eauto. }
  split; [rewrite lookup_insert_ne by exact Hne; exact Hl0|].
  intros [= E]. exact (Hne E).
Qed.

(** C8, as the code has it. The copy constructor hands the pointers
    themselves to the constructors of the kernel and tree types. The
    tolerances and the three flags are copied; the kernel the copy points
    at is a new heap object holding [KernelType(other.kernel)]; the tree of
    a copy of a trained, owning instance is a new heap object holding
    [Tree(other.referenceTree)]; a copy of a trained, borrowing instance
    holds the same tree pointer and no tree is allocated. The copy
    constructor itself dereferences neither pointer. *)
Theorem KDE_copy_constructs_from_pointers
    (w w' : World) (other copy : KDE) :
  KDE_copy w other = Ok (copy, w') ->
  relError copy = relError other /\
  absError copy = absError other /\
  breadthFirst copy = breadthFirst other /\
  trained copy = trained other /\
  ownsReferenceTree copy = ownsReferenceTree other /\
  exists k kern,
    kernel copy = At k /\ kernels w !! k = None /\
    KernelType_of_pointer w (kernel other) = Ok kern /\
    kernels w' = <[k := kern]> (kernels w) /\
    if trained other
    then if ownsReferenceTree other
         then exists l t,
                referenceTree copy = At l /\ trees w !! l = None /\
                Tree_of_pointer (new_kernel w kern).2 (referenceTree other)
                = Ok t /\
                trees w' = <[l := t]> (trees w)
         else referenceTree copy = referenceTree other /\ trees w' = trees w
    else trees w' = trees w.
Proof.
  unfold KDE_copy.
  destruct (KernelType_of_pointer w (kernel other)) as [kern| |] eqn:Ek;
    try discriminate.
  rewrite mbind_Ok. unfold new_kernel. cbn [snd].
  assert (kernels w !! fresh (dom (kernels w)) = None) as Hfresh
    by apply not_elem_of_dom, is_fresh.
  destruct (trained other) eqn:Ht.
  - destruct (ownsReferenceTree other) eqn:Ho.
    + destruct (Tree_of_pointer _ (referenceTree other)) as [t| |] eqn:Et;
        try discriminate.
      rewrite mbind_Ok. unfold new_tree. cbn [trees kernels warnings].
      intros [= <- <-]. cbn. repeat split.
      eexists _, _. repeat split; [exact Hfresh|].
      eexists _, _. repeat split;
        [apply not_elem_of_dom, is_fresh | exact Et].
    + intros [= <- <-]. cbn. repeat split.
      eexists _, _. repeat split. exact Hfresh.
  - intros [= <- <-]. cbn. repeat split.
    eexists _, _. repeat split. exact Hfresh.
Qed.

(** *** [Evaluate] and the members it does not read *)

(** C4, as the code has it. [Evaluate] on an instance that has only been
    constructed reads through the pointer [referenceTree], which the
    constructor leaves unset: the call has no defined behaviour, and no
    error is raised. *)
Theorem Evaluate_untrained
    (w w' : World) (bandwidth relErr absErr : D) (bf : bool) (this : KDE)
    (querySet : MatType) (estimations : list D) :
  KDE_new w bandwidth relErr absErr bf = Ok (this, w') ->
  Evaluate w' this querySet estimations = Undefined.
Proof.
  intros Hnew.
  destruct (KDE_new_spec w bandwidth relErr absErr bf)
    as [[_ E]|[_ (k & w'' & E & _)]]; rewrite E in Hnew; [discriminate|].
  injection Hnew as <- <-. unfold Evaluate.
  destruct (BuildTree querySet []) as [queryTree oldFromNew].
  destruct (new_tree w'' queryTree) as [q w1]. reflexivity.
Qed.

(** C6, as the code has it. Both [Evaluate] overloads instantiate the
    tree type's [DualTreeTraverser] whatever the [breadthFirst] member
    holds: two instances that differ in that member only run the same
    traversal and produce the same result. *)
Theorem Evaluate_ignores_breadthFirst
    (w : World) (this : KDE) (b : bool) (querySet : MatType)
    (q : positive) (oldFromNewQueries : list nat) (estimations : list D) :
  Evaluate_traverser (with_breadthFirst b this) = DualTreeTraverser /\
  Evaluate w (with_breadthFirst b this) querySet estimations
  = Evaluate w this querySet estimations /\
  Evaluate_tree w (with_breadthFirst b this) q oldFromNewQueries estimations
  = Evaluate_tree w this q oldFromNewQueries estimations.
Proof. repeat split; reflexivity. Qed.

(** *** The rest of the life cycle: assignment, destruction, evaluation *)

(** [operator=(KDE other)]. The parameter is passed by value: it is
    copy-constructed from the argument when the operator is entered and
    destroyed when it returns. [std::move] of a pointer copies it. *)
Definition KDE_assign (w : World) (this arg : KDE) : result (KDE * World) :=
  '(other, w) ← KDE_copy w arg;
  w ← (if ownsReferenceTree this then delete_tree w (referenceTree this)
       else Ok w);
  w ← delete_kernel w (kernel this);
  let this := mkKDE (kernel other) (relError other) (absError other)
                    (breadthFirst other) (ownsReferenceTree other)
                    (trained other) (referenceTree other) in
  w ← KDE_delete w other;
  Ok (this, w).

Lemma delete_kernel_gone (w w' : World) (p : pointer) :
  delete_kernel w p = Ok w' ->
  deref_kernel w' p = Undefined /\ trees w' = trees w.
Proof.
  destruct p as [|l]; cbn; [discriminate|].
  destruct (kernels w !! l); [|discriminate]. intros [= <-]. cbn.
  rewrite lookup_delete_eq. split; reflexivity.
Qed.

Lemma delete_tree_kernels (w w' : World) (p : pointer) :
  delete_tree w p = Ok w' -> kernels w' = kernels w.
Proof.
  destruct p as [|l]; cbn; [discriminate|].
  destruct (trees w !! l); [|discriminate]. intros [= <-]. reflexivity.
Qed.

Lemma KDE_delete_kernel_gone (w w' : World) (this : KDE) :
  KDE_delete w this = Ok w' -> deref_kernel w' (kernel this) = Undefined.
Proof.
  unfold KDE_delete.
  destruct (if ownsReferenceTree this then delete_tree w (referenceTree this)
            else Ok w) as [w1| |]; try discriminate.
  rewrite mbind_Ok. intros Hd. apply (delete_kernel_gone _ _ _ Hd).
Qed.

(** [Evaluate] needs the kernel object: without it the call has no
    defined behaviour, whatever the tree pointer holds. *)
Lemma Evaluate_needs_kernel (w : World) (this : KDE) (querySet : MatType)
    (estimations : list D) :
  deref_kernel w (kernel this) = Undefined ->
  Evaluate w this querySet estimations = Undefined.
Proof.
  intros Hk. unfold Evaluate.
  destruct (BuildTree querySet []) as [queryTree oldFromNew].
  unfold new_tree, traverse_and_normalize.
  destruct (deref_tree _ (referenceTree this)) as [t| |] eqn:E.
  - rewrite mbind_Ok.
    assert (deref_kernel
              (mkWorld (<[fresh (dom (trees w)) := queryTree]> (trees w))
                       (kernels w) (warnings w)) (kernel this) = Undefined) as ->
      by exact Hk.
    reflexivity.
  - destruct (referenceTree this) as [|l]; cbn in E; [discriminate|].
    destruct (_ !! l); discriminate.
  - reflexivity.
Qed.

(** Whenever an assignment [a = b] runs to its end, [a] is left holding
    the kernel pointer of the by-value parameter, whose destructor has
    deleted that kernel: the pointer dangles, and [Evaluate] on [a] has no
    defined behaviour. *)
Theorem KDE_assign_dangles
    (w w' : World) (this arg this' : KDE) (querySet : MatType)
    (estimations : list D) :
  KDE_assign w this arg = Ok (this', w') ->
  deref_kernel w' (kernel this') = Undefined /\
  Evaluate w' this' querySet estimations = Undefined.
Proof.
  unfold KDE_assign.
  destruct (KDE_copy w arg) as [[other w1]| |]; try discriminate.
  rewrite mbind_Ok. cbv beta iota.
  destruct (if ownsReferenceTree this then delete_tree w1 (referenceTree this)
            else Ok w1) as [w2| |]; try discriminate.
  rewrite mbind_Ok.
  destruct (delete_kernel w2 (kernel this)) as [w3| |]; try discriminate.
  rewrite mbind_Ok.
  destruct (KDE_delete w3 other) as [w4| |] eqn:Hd; try discriminate.
  rewrite mbind_Ok. intros [= <- <-].
  pose proof (KDE_delete_kernel_gone _ _ _ Hd) as Hk. cbn [kernel].
  split; [exact Hk|]. apply Evaluate_needs_kernel. exact Hk.
Qed.

(** Copying an instance and destroying the copy gives back the heap as
    it was: the two pointers the copy's destructor deletes are the ones
    the copy constructor got from [new], whatever the constructors of the
    kernel and tree types made of the addresses they were given. *)
Theorem KDE_copy_delete
    (w w1 : World) (other copy : KDE) :
  (ownsReferenceTree other = true -> trained other = true) ->
  KDE_copy w other = Ok (copy, w1) ->
  KDE_delete w1 copy = Ok w.
Proof.
  intros Hwf. unfold KDE_copy.
  destruct (KernelType_of_pointer w (kernel other)) as [kern| |];
    try discriminate.
  rewrite mbind_Ok. unfold new_kernel.
  assert (forall (ts : gmap positive Tree) (ws : list string),
            delete_kernel
              (mkWorld ts (<[fresh (dom (kernels w)) := kern]> (kernels w)) ws)
              (At (fresh (dom (kernels w))))
            = Ok (mkWorld ts (kernels w) ws)) as Hdk.
  { intros ts ws. cbn. rewrite lookup_insert_eq. do 2 f_equal.
    rewrite delete_insert_eq. apply delete_id, not_elem_of_dom, is_fresh. }
  destruct (trained other) eqn:Ht.
  - destruct (ownsReferenceTree other) eqn:Ho.
    + destruct (Tree_of_pointer _ (referenceTree other)) as [t| |];
        try discriminate.
      rewrite mbind_Ok. unfold new_tree. cbn [trees kernels warnings].
      intros [= <- <-]. unfold KDE_delete. cbn [ownsReferenceTree referenceTree kernel].
      cbn [delete_tree trees kernels warnings]. rewrite lookup_insert_eq, mbind_Ok.
      rewrite Hdk. do 2 f_equal. destruct w as [ts ks ws]. cbn. f_equal.
      rewrite delete_insert_eq. apply delete_id, not_elem_of_dom, is_fresh.
    + intros [= <- <-]. unfold KDE_delete. cbn [ownsReferenceTree kernel].
      rewrite mbind_Ok, Hdk. destruct w; reflexivity.
  - destruct (ownsReferenceTree other) eqn:Ho; [specialize (Hwf eq_refl); discriminate|].
    intros [= <- <-]. unfold KDE_delete. cbn [ownsReferenceTree kernel].
    rewrite mbind_Ok, Hdk. destruct w; reflexivity.
Qed.

(** An instance that is constructed, trained on a reference set and
    destroyed leaves no object behind: the heap holds the trees and kernels
    it held before the constructor ran. *)
Theorem KDE_new_Train_delete
    (w w1 : World) (bandwidth relErr absErr : D) (bf : bool) (this : KDE)
    (referenceSet : MatType) :
  KDE_new w bandwidth relErr absErr bf = Ok (this, w1) ->
  exists w3,
    KDE_delete (Train w1 this referenceSet).2 (Train w1 this referenceSet).1
    = Ok w3 /\
    trees w3 = trees w /\ kernels w3 = kernels w.
Proof.
  intros Hnew.
  destruct (KDE_new_spec w bandwidth relErr absErr bf)
    as [[_ E]|[_ (k & w1' & E & Ht & Hfresh & Hk)]]; rewrite E in Hnew;
    [discriminate|].
  injection Hnew as <- <-. unfold Train, new_tree, KDE_delete.
  cbn [fst snd ownsReferenceTree referenceTree kernel delete_tree trees kernels warnings].
  rewrite lookup_insert_eq, mbind_Ok. cbn [delete_kernel kernels trees warnings].
  rewrite Hk, lookup_insert_eq. eexists. split; [reflexivity|]. cbn. split.
  - rewrite delete_insert_eq, Ht. apply delete_id. rewrite <- Ht.
    apply not_elem_of_dom, is_fresh.
  - rewrite delete_insert_eq. apply delete_id. exact Hfresh.
Qed.

Lemma new_tree_delete (w : World) (t : Tree) :
  delete_tree (new_tree w t).2 (At (new_tree w t).1) = Ok w.
Proof.
  unfold new_tree. cbn [fst snd delete_tree trees kernels warnings].
  rewrite lookup_insert_eq. do 2 f_equal. destruct w as [ts ks ws].
  cbn. f_equal. rewrite delete_insert_eq.
  apply delete_id, not_elem_of_dom, is_fresh.
Qed.

Lemma new_tree_deref (w : World) (t : Tree) :
  deref_tree (new_tree w t).2 (At (new_tree w t).1) = Ok t.
Proof.
  unfold new_tree. cbn [fst snd deref_tree trees].
  rewrite lookup_insert_eq. reflexivity.
Qed.

Lemma new_tree_keeps (w : World) (t : Tree) (p : pointer) (t0 : Tree) :
  deref_tree w p = Ok t0 -> deref_tree (new_tree w t).2 p = Ok t0.
Proof.
  destruct p as [|l]; cbn; [discriminate|].
  destruct (trees w !! l) as [t1|] eqn:E; [|discriminate]. intros [= <-].
  rewrite lookup_insert_ne, E; [reflexivity|].
  intros <-. apply (is_fresh (dom (trees w))), elem_of_dom. eauto.
Qed.

(** [Evaluate(querySet, estimations)] is [Evaluate(queryTree, oldFromNew,
    estimations)] on the tree it builds for the query set, and it leaves
    the heap as it found it: whenever it returns, the query tree it
    allocated is the only object it has freed. *)
Theorem Evaluate_builds_and_frees
    (w : World) (this : KDE) (querySet : MatType) (estimations : list D) :
  Evaluate w this querySet estimations
  = (est ← Evaluate_tree (new_tree w (BuildTree querySet []).1).2 this
                         (new_tree w (BuildTree querySet []).1).1
                         (BuildTree querySet []).2 estimations;
     Ok (est, w)).
Proof.
  unfold Evaluate, Evaluate_tree.
  destruct (BuildTree querySet []) as [queryTree oldFromNew]. cbn [fst snd].
  pose proof (new_tree_delete w queryTree) as Hd.
  pose proof (new_tree_deref w queryTree) as Hq.
  destruct (new_tree w queryTree) as [q w1]. cbn [fst snd] in *.
  rewrite Hq, mbind_Ok.
  destruct (traverse_and_normalize w1 this queryTree oldFromNew estimations)
    as [est| |]; [|reflexivity ..].
  rewrite !mbind_Ok, Hd, mbind_Ok. reflexivity.
Qed.

End Facade.

Arguments KDE : clear implicits.
Arguments mkWorld {KernelType Tree} trees kernels warnings.
Arguments trees {KernelType Tree} w.
Arguments kernels {KernelType Tree} w.
Arguments warnings {KernelType Tree} w.
Arguments new_tree {KernelType Tree} w t.
Arguments new_kernel {KernelType Tree} w k.
Arguments deref_tree {KernelType Tree} w p.
Arguments deref_kernel {KernelType Tree} w p.
Arguments delete_tree {KernelType Tree} w p.
Arguments delete_kernel {KernelType Tree} w p.
Arguments Log_Warn {KernelType Tree} w msg.

(** *** The tolerance checks, read in exact arithmetic and in binary64 *)

Lemma dltb_exact (a b : Qc) : dltb a b = true <-> (a < b)%Qc.
Proof.
  cbn [dltb exact]. rewrite negb_true_iff. split.
  - intros E. apply Qnot_le_lt. intros Hle.
    apply Qle_bool_iff in Hle. congruence.
  - intros Hlt. destruct (Qle_bool b a) eqn:E; [|reflexivity].
    apply Qle_bool_iff in E. exfalso. exact (Qlt_not_le _ _ Hlt E).
Qed.

Lemma dltb_exact_false (a b : Qc) : dltb a b = false <-> (b <= a)%Qc.
Proof.
  cbn [dltb exact]. rewrite negb_false_iff. apply Qle_bool_iff.
Qed.

(** [RelativeError(newError)] accepts exactly the values of the interval
    [0, 1]: it then stores the value and touches no other member. On any
    other value it throws, and the object is as it was. *)
Theorem RelativeError_range (this : KDE Qc) (newError : Qc) :
  ((0 <= newError /\ newError <= 1)%Qc ->
   RelativeError this newError
   = Ok (mkKDE (kernel this) newError (absError this) (breadthFirst this)
               (ownsReferenceTree this) (trained this) (referenceTree this))) /\
  ((newError < 0 \/ 1 < newError)%Qc ->
   RelativeError this newError
   = Raises (runtime_error
               "Relative error tolerance must be a value between 0 and 1")).
Proof.
  unfold RelativeError. split.
  - intros [H0 H1]. apply dltb_exact_false in H0, H1.
    change (@d0 Qc exact) with 0%Qc. change (@d1 Qc exact) with 1%Qc.
    rewrite H0, H1. reflexivity.
  - intros Hout.
    change (@d0 Qc exact) with 0%Qc. change (@d1 Qc exact) with 1%Qc.
    destruct Hout as [Hlt|Hlt]; apply dltb_exact in Hlt; rewrite Hlt;
      [|rewrite orb_true_r]; reflexivity.
Qed.

(** [AbsoluteError(newError)] accepts exactly the values that are not
    negative, however large, and touches no other member. *)
Theorem AbsoluteError_range (this : KDE Qc) (newError : Qc) :
  ((0 <= newError)%Qc ->
   AbsoluteError this newError
   = Ok (mkKDE (kernel this) (relError this) newError (breadthFirst this)
               (ownsReferenceTree this) (trained this) (referenceTree this))) /\
  ((newError < 0)%Qc ->
   AbsoluteError this newError
   = Raises (runtime_error
               "Absolute error tolerance must be a value greater or equal to 0")).
Proof.
  unfold AbsoluteError. change (@d0 Qc exact) with 0%Qc. split.
  - intros H0. apply dltb_exact_false in H0. rewrite H0. reflexivity.
  - intros Hlt. apply dltb_exact in Hlt. rewrite Hlt. reflexivity.
Qed.

(** The constructor throws exactly when a tolerance is negative, with
    no upper bound on either. When it returns, the object is untrained and
    owns no tree, and the warning about summed tolerances has been logged
    exactly when both tolerances are positive. *)
Theorem KDE_new_range
    (KernelType Tree : Type) (newKernel : Qc -> KernelType)
    (w : World KernelType Tree) (bandwidth relErr absErr : Qc) (bf : bool) :
  ((relErr < 0 \/ absErr < 0)%Qc ->
   KDE_new KernelType newKernel Tree w bandwidth relErr absErr bf
   = Raises (runtime_error "Error tolerance can't be less than 0")) /\
  ((0 <= relErr /\ 0 <= absErr)%Qc ->
   exists k w',
     KDE_new KernelType newKernel Tree w bandwidth relErr absErr bf
     = Ok (mkKDE (At k) relErr absErr bf false false Indeterminate, w') /\
     kernels w' !! k = Some (newKernel bandwidth) /\
     ((0 < relErr /\ 0 < absErr)%Qc ->
      warnings w'
      = warnings w ++ ["Absolute and relative error tolerances will be sumed up"]) /\
     ((relErr = 0 \/ absErr = 0)%Qc -> warnings w' = warnings w)).
Proof.
  unfold KDE_new, new_kernel. change (@d0 Qc exact) with 0%Qc. split.
  - intros Hneg.
    destruct Hneg as [Hlt|Hlt]; apply dltb_exact in Hlt; rewrite Hlt;
      [|rewrite orb_true_r]; reflexivity.
  - intros [Hr Ha]. pose proof Hr as Hr'. pose proof Ha as Ha'.
    apply dltb_exact_false in Hr', Ha'. rewrite Hr', Ha'. cbn [orb].
    eexists _, _. split; [reflexivity|]. split.
    + destruct (dltb 0%Qc relErr && dltb 0%Qc absErr); cbn;
        apply lookup_insert_eq.
    + split.
      * intros [Hr1 Ha1]. apply dltb_exact in Hr1, Ha1. rewrite Hr1, Ha1.
        reflexivity.
      * intros Hz.
        assert (dltb 0%Qc relErr && dltb 0%Qc absErr = false) as ->;
          [|reflexivity].
        apply andb_false_iff.
        destruct Hz as [-> | ->]; [left|right]; apply dltb_exact_false;
          apply Qcle_refl.
Qed.

(** A NaN compares false with everything. *)
Lemma nan_ltb (v x : float) :
  PrimFloat.is_nan v = true ->
  PrimFloat.ltb v x = false /\ PrimFloat.ltb x v = false.
Proof.
  unfold PrimFloat.is_nan. intros E. apply negb_true_iff in E.
  rewrite FloatAxioms.eqb_spec in E. rewrite !FloatAxioms.ltb_spec.
  unfold SFeqb in E. unfold SFltb.
  assert (Prim2SF v = S754_nan) as ->.
  { destruct (Prim2SF v) as [s|s| |s m e]; cbn in E; try reflexivity.
    - discriminate.
    - destruct s; discriminate.
    - rewrite Z.compare_refl, Pos.compare_cont_refl in E.
      destruct s; discriminate. }
  split; [reflexivity|]. destruct (Prim2SF x); reflexivity.
Qed.

(** In binary64 every check of a tolerance lets a NaN through: the
    constructor and both setters accept it and store it. *)
Theorem tolerance_checks_accept_nan
    (KernelType Tree : Type) (newKernel : float -> KernelType)
    (w : World KernelType Tree) (bandwidth v : float) (bf : bool)
    (this : KDE float) :
  PrimFloat.is_nan v = true ->
  (exists this' w',
     KDE_new KernelType newKernel Tree w bandwidth v v bf = Ok (this', w') /\
     relError this' = v /\ absError this' = v) /\
  RelativeError this v
  = Ok (mkKDE (kernel this) v (absError this) (breadthFirst this)
              (ownsReferenceTree this) (trained this) (referenceTree this)) /\
  AbsoluteError this v
  = Ok (mkKDE (kernel this) (relError this) v (breadthFirst this)
              (ownsReferenceTree this) (trained this) (referenceTree this)).
Proof.
  intros Hnan.
  destruct (nan_ltb v 0%float Hnan) as [H0 H0'].
  destruct (nan_ltb v 1%float Hnan) as [_ H1].
  unfold KDE_new, RelativeError, AbsoluteError, new_kernel.
  change (@dltb float binary64) with PrimFloat.ltb.
  change (@d0 float binary64) with 0%float.
  change (@d1 float binary64) with 1%float.
  rewrite H0, H0', H1. cbn [orb andb].
  split; [|split; reflexivity].
  eexists _, _. split; [reflexivity|]. split; reflexivity.
Qed.

End KDE.

(** ** The dual-tree core: KDERules and the traversers

    kde_rules.hpp declares [KDERules]; its member functions
    (kde_rules_impl.hpp) and the traverser classes of the tree type are not
    among the sources. They are written here from sections 3, 4.2 and 4.3
    of the specification, to have rules and a traversal the facade can be
    run with; nothing is proved about them. *)

Module DualTree.

Import KDE.

Section Core.

Context {D : Type} `{Scalar D}.

(** The collaborators of section 2: a metric, a kernel with its bound
    computation, and bounding regions with their distance bounds. *)
Variable Point : Type.
Variable MetricType : Type.
Variable distance : MetricType -> Point -> Point -> D.
Variable KernelType : Type.
Variable evaluate : KernelType -> D -> D.
Variable bounds : KernelType -> D -> D -> D * D.
Variable Region : Type.
Variable MinDistance : Region -> Region -> D.
Variable MaxDistance : Region -> Region -> D.

(** Modelled from the spec: the tree node of section 3, which
    "owns a contiguous range of points in its dataset, a bounding region
    [...] and [...] child nodes"; a leaf has no children. The tree type
    is a template parameter of [KDE]. *)
Inductive Node : Type :=
  mkNode (first count : nat) (bound : Region) (children : list Node).

Definition first (n : Node) : nat := let 'mkNode f _ _ _ := n in f.
Definition count (n : Node) : nat := let 'mkNode _ c _ _ := n in c.
Definition bound (n : Node) : Region := let 'mkNode _ _ b _ := n in b.
Definition children (n : Node) : list Node := let 'mkNode _ _ _ cs := n in cs.

(** The indices of the points a node owns. *)
Definition points (n : Node) : list nat := seq (first n) (count n).

Record SpaceTree : Type := mkTree {
  root : Node;
  Dataset : list Point
}.

(** The data members kde_rules.hpp declares; [densities] stands for the
    vector the reference member aliases. *)
Record KDERules : Type := mkRules {
  referenceSet : list Point;
  querySet : list Point;
  densities : list D;
  absError : D;
  relError : D;
  oldFromNewQueries : list nat;
  metric : MetricType;
  kernel : KernelType;
  lastQueryIndex : nat;
  lastReferenceIndex : nat;
  traversalInfo : option (Node * Node);
  baseCases : nat;
  scores : nat
}.

(** The specification names two things without defining them: the error
    allowance the score compares against ("the remaining error allowance
    apportioned to queryNode"), and the position of the accumulator that
    belongs to a point of the query tree's dataset (the rules are handed
    [oldFromNewQueries]). Both are parameters of the rules. *)
Variable allowance : KDERules -> Node -> Node -> D.
Variable slot : list nat -> nat -> nat.

(** Modelled from the spec: the constructor, "bound to both datasets and
    the accumulator vector", with its counters at zero and no pair
    visited. *)
Definition newRules (referenceSet querySet : list Point) (densities : list D)
    (relError absError : D) (oldFromNewQueries : list nat)
    (metric : MetricType) (kernel : KernelType) : KDERules :=
  mkRules referenceSet querySet densities absError relError
          oldFromNewQueries metric kernel
          (length querySet) (length referenceSet) None 0 0.

(** Modelled from the spec: the accumulator holds "one scalar per query
    point", to which contributions are added; [kde_rules_impl.hpp], which
    says where, is missing. The element access is checked, as every
    Armadillo access is. *)
Definition credit (st : KDERules) (queryIndex : nat) (v : D) : result KDERules :=
  let i := slot (oldFromNewQueries st) queryIndex in
  if decide (i < length (densities st))
  then Ok (mkRules (referenceSet st) (querySet st)
                   (alter (fun a => dadd a v) i (densities st))
                   (absError st) (relError st) (oldFromNewQueries st)
                   (metric st) (kernel st) (lastQueryIndex st)
                   (lastReferenceIndex st) (traversalInfo st) (baseCases st)
                   (scores st))
  else Raises (logic_error "Mat::operator(): index out of bounds").

(** Modelled from the spec: [BaseCase] "computes
    metric.distance(query point, reference point), then
    kernel.evaluate(distance), adds it to the density accumulator for
    queryIndex, and increments a base-case counter". *)
Definition BaseCase (st : KDERules) (queryIndex referenceIndex : nat)
  : result KDERules :=
  match querySet st !! queryIndex, referenceSet st !! referenceIndex with
  | Some q, Some r =>
      st ← credit st queryIndex
                  (evaluate (kernel st) (distance (metric st) q r));
      Ok (mkRules (referenceSet st) (querySet st) (densities st) (absError st)
                  (relError st) (oldFromNewQueries st) (metric st) (kernel st)
                  queryIndex referenceIndex (traversalInfo st)
                  (S (baseCases st)) (scores st))
  | _, _ => Raises (logic_error "Mat::col(): index out of bounds")
  end.

(** Modelled from the spec: what a score tells the traverser, the
    "distinguished prune sentinel" or a finite priority. *)
Inductive score : Type :=
| Prune
| Priority (p : D).

(** Modelled from the spec: the "running counts of [...] scores
    performed" and the memo of the last visited pair. *)
Definition count_score (st : KDERules) (q r : Node) : KDERules :=
  mkRules (referenceSet st) (querySet st) (densities st) (absError st)
          (relError st) (oldFromNewQueries st) (metric st) (kernel st)
          (lastQueryIndex st) (lastReferenceIndex st) (Some (q, r))
          (baseCases st) (S (scores st)).

(** Modelled from the spec: the dual-tree [Score]. It "computes the
    minimum and maximum possible kernel value [...] using the kernel's
    bound-computation capability over the region-to-region [...] distance
    bounds. If (max - min) x |refNode| is within the remaining error
    allowance [...] every query point in queryNode receives the [...]
    aggregate contribution ((min+max)/2) x |refNode|", and the pair is
    pruned; otherwise a finite priority is returned. *)
Definition Score (st : KDERules) (queryNode referenceNode : Node)
  : result (score * KDERules) :=
  let minDistance := MinDistance (bound queryNode) (bound referenceNode) in
  let maxDistance := MaxDistance (bound queryNode) (bound referenceNode) in
  let '(minKernel, maxKernel) := bounds (kernel st) minDistance maxDistance in
  let size := of_size_t (count referenceNode) in
  if dleb (dmul (dsub maxKernel minKernel) size)
          (allowance st queryNode referenceNode)
  then
    let estimate := dmul (ddiv (dadd minKernel maxKernel) (dadd d1 d1)) size in
    st ← foldM (fun st i => credit st i estimate) (points queryNode) st;
    Ok (Prune, count_score st queryNode referenceNode)
  else Ok (Priority minDistance, count_score st queryNode referenceNode).

(** Modelled from the spec: [BaseCase] "for every point pair in the
    Cartesian product of the two leaves' point ranges". *)
Definition base_cases (st : KDERules) (q r : Node) : result KDERules :=
  foldM (fun st i => foldM (fun st j => BaseCase st i j) (points r) st)
        (points q) st.

(** Modelled from the spec: the depth-first traversal of section 4.2.
    The pair is scored; a pruned pair is skipped; two leaves are resolved
    by base cases; otherwise the traversal descends into the child
    combinations, in the order the children are stored. A pair is scored
    when it is visited, so no score is kept that [Rescore] would have to
    revise. *)
Fixpoint Traverse (q : Node) : Node -> KDERules -> result KDERules :=
  fix descend (r : Node) (st : KDERules) {struct r} : result KDERules :=
    match Score st q r with
    | Ok (Prune, st) => Ok st
    | Ok (Priority _, st) =>
        match q, r with
        | mkNode _ _ _ [], mkNode _ _ _ [] => base_cases st q r
        | mkNode _ _ _ [], mkNode _ _ _ rcs =>
            foldM (fun st rc => descend rc st) rcs st
        | mkNode _ _ _ qcs, mkNode _ _ _ [] =>
            foldM (fun st qc => Traverse qc r st) qcs st
        | mkNode _ _ _ qcs, mkNode _ _ _ rcs =>
            foldM (fun st qc => foldM (fun st rc => Traverse qc rc st) rcs st)
                  qcs st
        end
    | Raises e => Raises e
    | Undefined => Undefined
    end.

(** Modelled from the spec: the breadth-first mode, of which the spec
    says only that it is supported. One level of node pairs is scored and
    resolved ([visit_level]), and the child combinations of the pairs that
    were not pruned form the next level ([levels]), for as many levels as
    the two trees are high. *)
Definition child_pairs (q r : Node) : list (Node * Node) :=
  match children q, children r with
  | [], [] => []
  | [], rcs => map (fun rc => (q, rc)) rcs
  | qcs, [] => map (fun qc => (qc, r)) qcs
  | qcs, rcs => qc ← qcs; map (fun rc => (qc, rc)) rcs
  end.

Definition visit_level (acc : KDERules * list (Node * Node)) (p : Node * Node)
  : result (KDERules * list (Node * Node)) :=
  let '(st, next) := acc in
  let '(q, r) := p in
  scored ← Score st q r;
  match scored with
  | (Prune, st) => Ok (st, next)
  | (Priority _, st) =>
      match children q, children r with
      | [], [] => st ← base_cases st q r; Ok (st, next)
      | _, _ => Ok (st, next ++ child_pairs q r)
      end
  end.

Fixpoint height (n : Node) : nat :=
  let 'mkNode _ _ _ cs := n in
  S (fold_right (fun c h => Nat.max (height c) h) 0 cs).

Fixpoint levels (depth : nat) (level : list (Node * Node)) (st : KDERules)
  : result KDERules :=
  match depth with
  | O => Ok st
  | S depth' =>
      acc ← foldM visit_level level (st, []);
      levels depth' acc.2 acc.1
  end.

Definition TraverseBreadthFirst (q r : Node) (st : KDERules)
  : result KDERules :=
  levels (height q + height r) [(q, r)] st.

(** Modelled from the spec: the traverser classes of the tree type,
    [Tree::template <traverser><RuleType>::Traverse(queryTree, referenceTree)]. *)
Definition traverse (t : traverser) (rules : KDERules)
    (queryTree referenceTree : SpaceTree) : result KDERules :=
  match t with
  | DualTreeTraverser => Traverse (root queryTree) (root referenceTree) rules
  | BreadthFirstDualTreeTraverser =>
      TraverseBreadthFirst (root queryTree) (root referenceTree) rules
  end.

(** *** The facade over this core *)

(** What remains a parameter: the default-constructed metric, the kernel
    constructor and the tree constructors (the tree-construction algorithm
    is an external collaborator). A dataset is the list of its columns. *)
Variable newMetric : MetricType.
Variable newKernel : D -> KernelType.
Variable newTree : list Point -> SpaceTree.
Variable newTreeRearranging : list Point -> SpaceTree * list nat.
Variable RearrangesDataset : bool.

Definition KDE_BuildTree : list Point -> list nat -> SpaceTree * list nat :=
  BuildTree (list Point) SpaceTree newTree newTreeRearranging RearrangesDataset.

Definition KDE_Train
  : World KernelType SpaceTree -> KDE D -> list Point ->
    KDE D * World KernelType SpaceTree :=
  Train (list Point) KernelType SpaceTree newTree.

Definition KDE_Evaluate
  : World KernelType SpaceTree -> KDE D -> list Point -> list D ->
    result (list D * World KernelType SpaceTree) :=
  Evaluate (list Point) (@length Point) KernelType MetricType newMetric
           SpaceTree Dataset newTree newTreeRearranging RearrangesDataset
           KDERules newRules densities traverse.

End Core.

Arguments mkNode {Region} first count bound children.
Arguments first {Region} n.
Arguments count {Region} n.
Arguments bound {Region} n.
Arguments children {Region} n.
Arguments points {Region} n.
Arguments height {Region} n.
Arguments mkTree {Point Region} root Dataset.
Arguments root {Point Region} s.
Arguments Dataset {Point Region} s.
Arguments referenceSet {D Point MetricType KernelType Region} k.
Arguments querySet {D Point MetricType KernelType Region} k.
Arguments densities {D Point MetricType KernelType Region} k.
Arguments absError {D Point MetricType KernelType Region} k.
Arguments relError {D Point MetricType KernelType Region} k.
Arguments oldFromNewQueries {D Point MetricType KernelType Region} k.
Arguments metric {D Point MetricType KernelType Region} k.
Arguments kernel {D Point MetricType KernelType Region} k.
Arguments lastQueryIndex {D Point MetricType KernelType Region} k.
Arguments lastReferenceIndex {D Point MetricType KernelType Region} k.
Arguments traversalInfo {D Point MetricType KernelType Region} k.
Arguments baseCases {D Point MetricType KernelType Region} k.
Arguments scores {D Point MetricType KernelType Region} k.
Arguments count_score {D Point MetricType KernelType Region} st q r.

End DualTree.

(** ** An instance: densities on a line

    Points are scalars, the metric is the absolute difference, the kernel
    is the triangular kernel of a given bandwidth, and a bounding region is
    an interval. The tree constructor builds a single leaf; deeper trees
    are supplied by the caller through [Train(Tree&)]. *)

Module Line.

Import KDE DualTree.

Section Instance.

Context {D : Type} `{Scalar D}.

Definition dmax (a b : D) : D := if dltb a b then b else a.
Definition dmin (a b : D) : D := if dltb a b then a else b.

Definition distance (_ : unit) (x y : D) : D :=
  if dltb x y then dsub y x else dsub x y.

Definition evaluate (bandwidth d : D) : D :=
  let u := ddiv d bandwidth in
  if dltb u d1 then dsub d1 u else d0.

(** The kernel does not increase with the distance. *)
Definition bounds (bandwidth minDistance maxDistance : D) : D * D :=
  (evaluate bandwidth maxDistance, evaluate bandwidth minDistance).

Definition MinDistance (a b : D * D) : D :=
  if dltb a.2 b.1 then dsub b.1 a.2
  else if dltb b.2 a.1 then dsub a.1 b.2
  else d0.

Definition MaxDistance (a b : D * D) : D :=
  dmax (dsub b.2 a.1) (dsub a.2 b.1).

#[local] Abbreviation rules := (@KDERules D D unit D (D * D)).
#[local] Abbreviation node := (Node (D * D)).
#[local] Abbreviation tree := (SpaceTree D (D * D)).
#[local] Abbreviation world := (World D tree).

(** The share of the budget [absError + relError] that falls to a
    reference node, in proportion to its size. *)
Definition allowance (st : rules) (q r : node) : D :=
  ddiv (dmul (dadd (absError st) (relError st)) (of_size_t (count r)))
       (of_size_t (length (referenceSet st))).

(** The accumulator is indexed in the caller's order. *)
Definition slot (oldFromNew : list nat) (i : nat) : nat :=
  default i (oldFromNew !! i).

Definition hull (ds : list D) : D * D :=
  match ds with
  | [] => (d0, d0)
  | d :: ds' => (fold_left dmin ds' d, fold_left dmax ds' d)
  end.

Definition leaf (ds : list D) : tree :=
  mkTree (mkNode 0 (length ds) (hull ds) []) ds.

Definition new (w : world) (bandwidth relError absError : D) (bf : bool)
  : result (KDE D * world) :=
  KDE_new D (fun b => b) tree w bandwidth relError absError bf.

Definition Evaluate (w : world) (this : KDE D) (querySet estimations : list D)
  : result (list D * world) :=
  KDE_Evaluate D unit distance D evaluate bounds (D * D) MinDistance
               MaxDistance allowance slot tt leaf
               (fun ds => (leaf ds, seq 0 (length ds))) false
               w this querySet estimations.

End Instance.

(** Four reference points in two leaves, bandwidth 2, zero tolerances,
    the tree supplied by the caller at address 1. *)
Definition referenceTree : SpaceTree Qc (Qc * Qc) :=
  mkTree (mkNode 0 4 (Q2Qc 0, Q2Qc 5)
            [mkNode 0 2 (Q2Qc 0, Q2Qc 1) [];
             mkNode 2 2 (Q2Qc 4, Q2Qc 5) []])
         [Q2Qc 0; Q2Qc 1; Q2Qc 4; Q2Qc 5].

Definition heap : World Qc (SpaceTree Qc (Qc * Qc)) :=
  mkWorld {[1%positive := referenceTree]} {[1%positive := Q2Qc 2]} [].

Definition trained_kde : KDE Qc :=
  mkKDE (At 1) (Q2Qc 0) (Q2Qc 0) false false true (At 1).

Definition queries : list Qc := [Q2Qc 0; Q2Qc (1 # 2)].

(** The same reference tree, owned by the instance, at address 2. *)
Definition owning_heap : World Qc (SpaceTree Qc (Qc * Qc)) :=
  mkWorld {[1%positive := referenceTree; 2%positive := leaf queries]}
          {[1%positive := Q2Qc 2]} [].

Definition owning_kde : KDE Qc :=
  mkKDE (At 1) (Q2Qc 0) (Q2Qc 0) false true true (At 2).

(** Binary64 instances: an empty heap, and the object the constructor
    leaves there for bandwidth 1 and zero tolerances. *)
Definition empty_heap : World float (SpaceTree float (float * float)) :=
  mkWorld ∅ ∅ [].

Definition fresh_kde : KDE float :=
  mkKDE (At 1) 0%float 0%float false false false Indeterminate.

Definition fresh_heap : World float (SpaceTree float (float * float)) :=
  mkWorld ∅ {[1%positive := 1%float]} [].

Local Open Scope Qc_scope.

Example trained_kde_by_Train :
  Train_tree Qc (SpaceTree Qc (Qc * Qc))
             heap (mkKDE (At 1) (Q2Qc 0) (Q2Qc 0) false false false Indeterminate) 1
  = Ok (trained_kde, heap).
Proof. reflexivity. Qed.

Example fresh_kde_by_new :
  new empty_heap 1%float 0%float 0%float false = Ok (fresh_kde, fresh_heap).
Proof. vm_compute. reflexivity. Qed.

Lemma Train_ownership_witness :
  (ownsReferenceTree
     (Train (list Qc) Qc _ leaf owning_heap owning_kde queries).1 = true /\
   trained (Train (list Qc) Qc _ leaf owning_heap owning_kde queries).1 = true /\
   exists l1,
     KDE.referenceTree
       (Train (list Qc) Qc _ leaf owning_heap owning_kde queries).1 = At l1 /\
     trees owning_heap !! l1 = None /\
     trees (Train (list Qc) Qc _ leaf owning_heap owning_kde queries).2 !! l1
     = Some (leaf queries)) /\
  exists this' w',
    Train_tree Qc _ owning_heap owning_kde 1 = Ok (this', w') /\
    ownsReferenceTree this' = false /\
    trained this' = true /\
    KDE.referenceTree this' = At 1 /\
    trees w' !! 1%positive = Some referenceTree /\
    (forall l0, ownsReferenceTree owning_kde = true ->
                KDE.referenceTree owning_kde = At l0 -> trees w' !! l0 = None) /\
    (ownsReferenceTree owning_kde = false -> w' = owning_heap).
Proof.
  apply (Train_ownership (list Qc) Qc _ leaf owning_heap owning_kde queries
           1%positive referenceTree).
  - reflexivity.
  - intros _. exists 2%positive. split; [reflexivity|]. split; [discriminate|].
    eexists. reflexivity.
Defined.

Lemma Train_keeps_owned_tree_witness :
  trees (Train (list Qc) Qc _ leaf owning_heap owning_kde queries).2 !! 2%positive
  = Some (leaf queries) /\
  KDE.referenceTree (Train (list Qc) Qc _ leaf owning_heap owning_kde queries).1
  <> At 2.
Proof.
  apply (Train_keeps_owned_tree (list Qc) Qc _ leaf owning_heap owning_kde
           queries 2%positive (leaf queries)); reflexivity.
Defined.

Lemma Evaluate_untrained_witness :
  Evaluate fresh_heap fresh_kde [0%float] [0%float] = Undefined.
Proof.
  unfold Evaluate, KDE_Evaluate.
  apply (Evaluate_untrained _ _ _ (fun b => b) _ _ _ _ _ _ _ _ _ _ _
           empty_heap fresh_heap 1%float 0%float 0%float false fresh_kde).
  vm_compute. reflexivity.
Defined.

(** [Evaluate] on the freshly constructed instance raises no exception. *)
Lemma Evaluate_untrained_raises_nothing :
  ~ exists e, Evaluate fresh_heap fresh_kde [0%float] [0%float] = Raises e.
Proof. intros [e E]. vm_compute in E. discriminate E. Qed.

(** No two instances make [Evaluate] run different traversers. *)
Lemma no_breadth_first_Evaluate :
  ~ exists this1 this2 : KDE float,
      this2 = with_breadthFirst (negb (breadthFirst this1)) this1 /\
      Evaluate_traverser this1 = DualTreeTraverser /\
      Evaluate_traverser this2 = BreadthFirstDualTreeTraverser.
Proof. intros (this1 & this2 & _ & _ & E). discriminate E. Qed.

(** C3 at [relError = 1.5]: the constructor accepts the value that
    [RelativeError] refuses. *)
Theorem KDE_new_accepts_relError_above_1 :
  exists this w,
    new empty_heap 1%float 1.5%float 0%float false = Ok (this, w) /\
    KDE.relError this = 1.5%float /\
    RelativeError this 1.5%float
    = Raises (runtime_error
                "Relative error tolerance must be a value between 0 and 1").
Proof. eexists _, _. vm_compute. repeat split; reflexivity. Qed.

(** The other values of C3, in binary64: the constructor and the two
    setters refuse -0.1 and -1, and all accept 0, 1 and 0. *)
Lemma tolerance_checks :
  new empty_heap 1%float (-0x1.999999999999ap-4)%float 0%float false
    = Raises (runtime_error "Error tolerance can't be less than 0") /\
  new empty_heap 1%float 0%float (-1)%float false
    = Raises (runtime_error "Error tolerance can't be less than 0") /\
  RelativeError fresh_kde (-0x1.999999999999ap-4)%float
    = Raises (runtime_error
                "Relative error tolerance must be a value between 0 and 1") /\
  AbsoluteError fresh_kde (-1)%float
    = Raises (runtime_error
                "Absolute error tolerance must be a value greater or equal to 0") /\
  (exists this w, new empty_heap 1%float 0%float 0%float false = Ok (this, w)) /\
  (exists this w, new empty_heap 1%float 1%float 0%float false = Ok (this, w)) /\
  (exists this, RelativeError fresh_kde 0%float = Ok this /\
                KDE.relError this = 0%float) /\
  (exists this, RelativeError fresh_kde 1%float = Ok this /\
                KDE.relError this = 1%float) /\
  (exists this, AbsoluteError fresh_kde 0%float = Ok this /\
                KDE.absError this = 0%float).
Proof.
  vm_compute. repeat split; try reflexivity; eexists; try eexists;
    repeat split; reflexivity.
Qed.

(** For the copy constructor to compile, the kernel and the tree type
    need a constructor that takes an address. In this instance the kernel
    built from an address has bandwidth 1 and the tree built from an
    address is empty. *)
Definition kernel_of_pointer (_ : World Qc (SpaceTree Qc (Qc * Qc)))
    (_ : pointer) : result Qc := Ok 1.

Definition tree_of_pointer (_ : World Qc (SpaceTree Qc (Qc * Qc)))
    (_ : pointer) : result (SpaceTree Qc (Qc * Qc)) := Ok (leaf []).

Definition copy (w : World Qc (SpaceTree Qc (Qc * Qc))) (other : KDE Qc)
  : result (KDE Qc * World Qc (SpaceTree Qc (Qc * Qc))) :=
  KDE_copy Qc _ kernel_of_pointer tree_of_pointer w other.

Definition assign (w : World Qc (SpaceTree Qc (Qc * Qc))) (this arg : KDE Qc)
  : result (KDE Qc * World Qc (SpaceTree Qc (Qc * Qc))) :=
  KDE_assign Qc _ kernel_of_pointer tree_of_pointer w this arg.

(** The copy of the owning instance, and the heap with it. *)
Definition copied_kde : KDE Qc :=
  mkKDE (At 2) (Q2Qc 0) (Q2Qc 0) false true true (At 3).

Definition copied_heap : World Qc (SpaceTree Qc (Qc * Qc)) :=
  mkWorld {[1%positive := referenceTree; 2%positive := leaf queries;
            3%positive := leaf []]}
          {[1%positive := Q2Qc 2; 2%positive := 1]} [].

Example copied_kde_by_copy :
  copy owning_heap owning_kde = Ok (copied_kde, copied_heap).
Proof. vm_compute. reflexivity. Qed.

Lemma KDE_copy_constructs_from_pointers_witness :
  KDE.relError copied_kde = KDE.relError owning_kde /\
  KDE.absError copied_kde = KDE.absError owning_kde /\
  breadthFirst copied_kde = breadthFirst owning_kde /\
  trained copied_kde = trained owning_kde /\
  ownsReferenceTree copied_kde = ownsReferenceTree owning_kde /\
  exists k kern,
    KDE.kernel copied_kde = At k /\ kernels owning_heap !! k = None /\
    kernel_of_pointer owning_heap (KDE.kernel owning_kde) = Ok kern /\
    kernels copied_heap = <[k := kern]> (kernels owning_heap) /\
    if trained owning_kde
    then if ownsReferenceTree owning_kde
         then exists l t,
                KDE.referenceTree copied_kde = At l /\
                trees owning_heap !! l = None /\
                tree_of_pointer (new_kernel owning_heap kern).2
                                (KDE.referenceTree owning_kde) = Ok t /\
                trees copied_heap = <[l := t]> (trees owning_heap)
         else KDE.referenceTree copied_kde = KDE.referenceTree owning_kde /\
              trees copied_heap = trees owning_heap
    else trees copied_heap = trees owning_heap.
Proof.
  apply (KDE_copy_constructs_from_pointers Qc _ kernel_of_pointer
           tree_of_pointer owning_heap copied_heap owning_kde copied_kde).
  vm_compute. reflexivity.
Defined.

(** The copy is not a deep copy: its kernel and its tree do not hold
    what the original's hold. *)
Lemma KDE_copy_is_not_deep :
  exists kern kern' t t',
    deref_kernel owning_heap (KDE.kernel owning_kde) = Ok kern /\
    deref_kernel copied_heap (KDE.kernel copied_kde) = Ok kern' /\
    kern' <> kern /\
    deref_tree owning_heap (KDE.referenceTree owning_kde) = Ok t /\
    deref_tree copied_heap (KDE.referenceTree copied_kde) = Ok t' /\
    t' <> t.
Proof.
  exists (Q2Qc 2), 1, (leaf queries), (leaf []).
  split; [reflexivity|]. split; [reflexivity|]. split; [discriminate|].
  split; [reflexivity|]. split; [reflexivity|]. discriminate.
Qed.

(** Two instances with their own kernels: one owns the tree at address 2,
    the other borrows the tree at address 1. *)
Definition two_heap : World Qc (SpaceTree Qc (Qc * Qc)) :=
  mkWorld {[1%positive := referenceTree; 2%positive := leaf queries]}
          {[1%positive := Q2Qc 2; 2%positive := Q2Qc 3]} [].

Definition borrowing_kde : KDE Qc :=
  mkKDE (At 2) (Q2Qc 0) (Q2Qc 0) false false true (At 1).

Definition assigned_kde : KDE Qc :=
  mkKDE (At 3) (Q2Qc 0) (Q2Qc 0) false false true (At 1).

Definition assigned_heap : World Qc (SpaceTree Qc (Qc * Qc)) :=
  mkWorld {[1%positive := referenceTree]} {[2%positive := Q2Qc 3]} [].

Example assigned_kde_by_assign :
  assign two_heap owning_kde borrowing_kde = Ok (assigned_kde, assigned_heap).
Proof. vm_compute. reflexivity. Qed.

Lemma KDE_assign_dangles_witness :
  deref_kernel assigned_heap (KDE.kernel assigned_kde) = Undefined /\
  Evaluate assigned_heap assigned_kde queries [Q2Qc 0; Q2Qc 0] = Undefined.
Proof.
  unfold Evaluate, KDE_Evaluate.
  apply (KDE_assign_dangles _ _ _ _ _ _ _ _ _ _ _ _ _ _
           kernel_of_pointer tree_of_pointer
           two_heap assigned_heap owning_kde borrowing_kde assigned_kde).
  vm_compute. reflexivity.
Defined.

Lemma KDE_copy_delete_witness :
  KDE_delete Qc _ copied_heap copied_kde = Ok owning_heap.
Proof.
  apply (KDE_copy_delete Qc _ kernel_of_pointer tree_of_pointer
           owning_heap _ owning_kde).
  - reflexivity.
  - vm_compute. reflexivity.
Defined.

Lemma KDE_new_Train_delete_witness :
  exists w3,
    KDE_delete float _
      (Train (list float) float _ leaf fresh_heap fresh_kde [0; 1]%float).2
      (Train (list float) float _ leaf fresh_heap fresh_kde [0; 1]%float).1
    = Ok w3 /\
    trees w3 = trees empty_heap /\ kernels w3 = kernels empty_heap.
Proof.
  apply (KDE_new_Train_delete (list float) float (fun b => b) _ leaf
           empty_heap fresh_heap 1%float 0%float 0%float false fresh_kde).
  vm_compute. reflexivity.
Defined.

Lemma tolerance_checks_accept_nan_witness :
  (exists this' w',
     new empty_heap 1%float nan nan false = Ok (this', w') /\
     KDE.relError this' = nan /\ KDE.absError this' = nan) /\
  RelativeError fresh_kde nan
  = Ok (mkKDE (At 1) nan 0%float false false false Indeterminate) /\
  AbsoluteError fresh_kde nan
  = Ok (mkKDE (At 1) 0%float nan false false false Indeterminate).
Proof.
  apply (tolerance_checks_accept_nan float (SpaceTree float (float * float))
           (fun b => b) empty_heap 1%float nan false fresh_kde).
  reflexivity.
Defined.

End Line.
